(** * Evidence registry, citation renderer and refinement loop of [app/agent.py]

    A shallow embedding of the callbacks and of the loop-control agent of
    [src/app/agent.py], with the properties of its specification.

    Conventions of the embedding:
    - a Python [str] is a [string]; every character is a code point below 256;
    - an [Optional[str]] attribute of the grounding metadata is a [pystr];
    - a Python [float] is a primitive [float]; the code only stores and copies
      confidence scores, it never computes with them;
    - a raised exception ([KeyError], [IndexError]) is the result [None];
    - the insertion-ordered dict [url_to_short_id] is an association list in
      insertion order, the dict [sources] is a [gmap] keyed by short id. *)

From Stdlib Require Import ZArith String Ascii List PrimFloat.
From stdpp Require Import gmap strings list pretty.


(** ** Python values *)

(** [Optional[str]]: the URI, title and domain of a web chunk and the text of
    a segment may each be [None]. *)
Inductive pystr :=
| PyNone
| PyStr (s : string).

#[global] Instance pystr_eq_dec : EqDecision pystr.
Proof. solve_decision. Defined.

(** What an f-string prints for such a value. *)
Definition py_format (v : pystr) : string :=
  match v with
  | PyNone => "None"
  | PyStr s => s
  end.

(** ** Insertion-ordered dictionaries *)

Section PyDict.
Context {K V : Type} `{EqDecision K}.

(** [k in d] *)
Fixpoint dict_contains (d : list (K * V)) (k : K) : bool :=
  match d with
  | [] => false
  | (k', _) :: d' => if decide (k = k') then true else dict_contains d' k
  end.

(** [d[k]], [None] standing for [KeyError] *)
Fixpoint dict_get (d : list (K * V)) (k : K) : option V :=
  match d with
  | [] => None
  | (k', v) :: d' => if decide (k = k') then Some v else dict_get d' k
  end.

(** [d[k] = v]: an existing key keeps its position, a new key goes last. *)
Fixpoint dict_set (d : list (K * V)) (k : K) (v : V) : list (K * V) :=
  match d with
  | [] => [(k, v)]
  | (k', v') :: d' =>
      if decide (k = k') then (k, v) :: d' else (k', v') :: dict_set d' k v
  end.

End PyDict.

(** ** Data model *)

(** One supported claim, [{"text_segment": ..., "confidence": ...}]. *)
Record claim := Claim {
  text_segment : pystr;
  confidence : float
}.

(** An entry of [sources]. It is a Python dict, so each of its keys may be
    present or not: [None] stands for a missing key. The collector always
    writes the five keys. *)
Record source_info := SourceInfo {
  src_short_id : option string;
  src_title : option pystr;
  src_url : option pystr;
  src_domain : option pystr;
  src_supported_claims : option (list claim)
}.

(** Truth value of the dict: false exactly when it is empty. *)
Definition source_truthy (si : source_info) : bool :=
  bool_decide (is_Some (src_short_id si)) ||
  bool_decide (is_Some (src_title si)) ||
  bool_decide (is_Some (src_url si)) ||
  bool_decide (is_Some (src_domain si)) ||
  bool_decide (is_Some (src_supported_claims si)).

(** The grounding metadata of an event, as the callback reads it. *)
Record GroundingChunkWeb := {
  web_uri : pystr;
  web_title : pystr;
  web_domain : pystr
}.

Record GroundingChunk := {
  web : option GroundingChunkWeb
}.

Record Segment := {
  seg_text : pystr
}.

Record GroundingSupport := {
  segment : option Segment;
  confidence_scores : option (list float);
  grounding_chunk_indices : option (list Z)
}.

Record GroundingMetadata := {
  grounding_chunks : option (list GroundingChunk);
  grounding_supports : option (list GroundingSupport)
}.

Record Event := {
  grounding_metadata : option GroundingMetadata
}.

(** The [Feedback] dict stored under [research_evaluation]. *)
Record Feedback := {
  grade : option string;
  comment : option string;
  follow_up_queries : option (list string)
}.

Definition feedback_truthy (f : Feedback) : bool :=
  bool_decide (is_Some (grade f)) ||
  bool_decide (is_Some (comment f)) ||
  bool_decide (is_Some (follow_up_queries f)).

(** The session state: the keys the callbacks and the checker read or write.
    [None] is a key that has not been written yet. *)
Record State := {
  url_to_short_id : option (list (pystr * string));
  sources : option (gmap string source_info);
  final_cited_report : option string;
  final_report_with_citations : option string;
  research_evaluation : option Feedback
}.

Definition empty_state : State :=
  {| url_to_short_id := None;
     sources := None;
     final_cited_report := None;
     final_report_with_citations := None;
     research_evaluation := None |}.

(** ** [collect_research_sources_callback] *)

(** The local variables of the callback while it walks the events. *)
Record locals := Locals {
  l_index : list (pystr * string);
  l_sources : gmap string source_info;
  l_counter : nat;
  l_chunks_info : gmap Z string
}.

(** [f"src-{id_counter}"] *)
Definition short_id_of (id_counter : nat) : string :=
  "src-" +:+ pretty id_counter.

(** Body of [for idx, chunk in enumerate(grounding_chunks)]. *)
Definition chunk_body (idx : nat) (chunk : GroundingChunk) (l : locals)
  : option locals :=
  match web chunk with
  | None => Some l
  | Some w =>
      let url := web_uri w in
      let title :=
        if negb (bool_decide (web_title w = web_domain w))
        then web_title w else web_domain w in
      let l1 :=
        if negb (dict_contains (l_index l) url) then
          let short_id := short_id_of (l_counter l) in
          {| l_index := dict_set (l_index l) url short_id;
             l_sources :=
               <[short_id :=
                   {| src_short_id := Some short_id;
                      src_title := Some title;
                      src_url := Some url;
                      src_domain := Some (web_domain w);
                      src_supported_claims := Some [] |}]> (l_sources l);
             l_counter := l_counter l + 1;
             l_chunks_info := l_chunks_info l |}
        else l in
      short_id ← dict_get (l_index l1) url;
      Some {| l_index := l_index l1;
              l_sources := l_sources l1;
              l_counter := l_counter l1;
              l_chunks_info := <[Z.of_nat idx := short_id]> (l_chunks_info l1) |}
  end.

Fixpoint chunks_loop (idx : nat) (chunks : list GroundingChunk) (l : locals)
  : option locals :=
  match chunks with
  | [] => Some l
  | chunk :: rest => l' ← chunk_body idx chunk l; chunks_loop (S idx) rest l'
  end.

(** [sources[short_id]["supported_claims"].append(c)] *)
Definition append_claim (short_id : string) (c : claim)
    (srcs : gmap string source_info) : option (gmap string source_info) :=
  si ← srcs !! short_id;
  claims ← src_supported_claims si;
  Some (<[short_id :=
            {| src_short_id := src_short_id si;
               src_title := src_title si;
               src_url := src_url si;
               src_domain := src_domain si;
               src_supported_claims := Some (claims ++ [c]) |}]> srcs).

(** Body of [for i, chunk_idx in enumerate(chunk_indices)]. *)
Definition index_body (chunks_info : gmap Z string) (support : GroundingSupport)
    (scores : list float) (i : nat) (chunk_idx : Z)
    (srcs : gmap string source_info) : option (gmap string source_info) :=
  match chunks_info !! chunk_idx with
  | Some short_id =>
      confidence ←
        (if decide (i < length scores) then scores !! i else Some 0.5%float);
      let text :=
        match segment support with
        | Some sg => seg_text sg
        | None => PyStr ""
        end in
      append_claim short_id {| text_segment := text; confidence := confidence |} srcs
  | None => Some srcs
  end.

Fixpoint indices_loop (chunks_info : gmap Z string) (support : GroundingSupport)
    (scores : list float) (i : nat) (chunk_indices : list Z)
    (srcs : gmap string source_info) : option (gmap string source_info) :=
  match chunk_indices with
  | [] => Some srcs
  | chunk_idx :: rest =>
      srcs' ← index_body chunks_info support scores i chunk_idx srcs;
      indices_loop chunks_info support scores (S i) rest srcs'
  end.

(** Body of [for support in grounding_supports]. *)
Definition support_body (chunks_info : gmap Z string) (support : GroundingSupport)
    (srcs : gmap string source_info) : option (gmap string source_info) :=
  let scores := default [] (confidence_scores support) in
  let chunk_indices := default [] (grounding_chunk_indices support) in
  indices_loop chunks_info support scores 0 chunk_indices srcs.

Fixpoint supports_loop (chunks_info : gmap Z string)
    (supports : list GroundingSupport) (srcs : gmap string source_info)
  : option (gmap string source_info) :=
  match supports with
  | [] => Some srcs
  | support :: rest =>
      srcs' ← support_body chunks_info support srcs;
      supports_loop chunks_info rest srcs'
  end.

(** The chunks of an event that passes the guard
    [event.grounding_metadata and event.grounding_metadata.grounding_chunks]. *)
Definition event_chunks (event : Event) : option (list GroundingChunk) :=
  match grounding_metadata event with
  | Some gm =>
      match grounding_chunks gm with
      | Some (c :: cs) => Some (c :: cs)
      | _ => None
      end
  | None => None
  end.

Definition event_supports (event : Event) : list GroundingSupport :=
  match grounding_metadata event with
  | Some gm => default [] (grounding_supports gm)
  | None => []
  end.

(** Body of [for event in session.events]; [chunks_info] starts empty for
    each event. *)
Definition event_body (event : Event) (l : locals) : option locals :=
  match event_chunks event with
  | None => Some l
  | Some chunks =>
      l1 ← chunks_loop 0 chunks
             {| l_index := l_index l; l_sources := l_sources l;
                l_counter := l_counter l; l_chunks_info := ∅ |};
      srcs ← supports_loop (l_chunks_info l1) (event_supports event) (l_sources l1);
      Some {| l_index := l_index l1; l_sources := srcs;
              l_counter := l_counter l1; l_chunks_info := l_chunks_info l1 |}
  end.

Fixpoint events_loop (events : list Event) (l : locals) : option locals :=
  match events with
  | [] => Some l
  | event :: rest => l' ← event_body event l; events_loop rest l'
  end.

(** The callback, run on the session's events [events] and the state [st]. *)
Definition collect_research_sources_callback (events : list Event) (st : State)
  : option State :=
  let index := default [] (url_to_short_id st) in
  let srcs := default ∅ (sources st) in
  let id_counter := length index + 1 in
  l ← events_loop events
        {| l_index := index; l_sources := srcs;
           l_counter := id_counter; l_chunks_info := ∅ |};
  Some {| url_to_short_id := Some (l_index l);
          sources := Some (l_sources l);
          final_cited_report := final_cited_report st;
          final_report_with_citations := final_report_with_citations st;
          research_evaluation := research_evaluation st |}.

(** A run invokes the callback any number of times, each time on the events
    the session holds at that moment, starting from the empty state. *)
Fixpoint run_callbacks (invocations : list (list Event)) (st : State)
  : option State :=
  match invocations with
  | [] => Some st
  | events :: rest =>
      st' ← collect_research_sources_callback events st; run_callbacks rest st'
  end.

(** ** Regular expressions, as Python's [re] matches them *)

(** The fragment of the pattern language the two patterns of the module use.
    Repetition is over a character class, which is all the patterns need. *)
Inductive regex :=
| Eps
| Lit (c : ascii)
| Class (p : ascii -> bool)
| Cat (r1 r2 : regex)
| Opt (r : regex)
| Star (p : ascii -> bool)
| Group (r : regex).

(** [p+] *)
Definition plus (p : ascii -> bool) : regex := Cat (Class p) (Star p).

(** A literal string. *)
Fixpoint lits (s : string) : regex :=
  match s with
  | EmptyString => Eps
  | String c s' => Cat (Lit c) (lits s')
  end.

Definition cat_all (rs : list regex) : regex := foldr Cat Eps rs.

(** The text between the position [s] and the later position [s']. *)
Definition consumed (s s' : string) : string :=
  substring 0 (String.length s - String.length s') s.

(** Greedy repetition with backtracking: take one more character when
    possible, give it back when the continuation fails. *)
Fixpoint star_bt {R} (p : ascii -> bool) (s : string) (k : string -> option R)
  : option R :=
  match s with
  | String c s' =>
      if p c then
        match star_bt p s' k with
        | Some r => Some r
        | None => k s
        end
      else k s
  | EmptyString => k s
  end.

(** The backtracking matcher, in continuation-passing style: [g] is the
    current content of group 1, [k] the rest of the match. *)
Fixpoint bt {R} (r : regex) (s : string) (g : option string)
    (k : string -> option string -> option R) : option R :=
  match r with
  | Eps => k s g
  | Lit c =>
      match s with
      | String c' s' => if Ascii.eqb c c' then k s' g else None
      | EmptyString => None
      end
  | Class p =>
      match s with
      | String c' s' => if p c' then k s' g else None
      | EmptyString => None
      end
  | Cat r1 r2 => bt r1 s g (fun s1 g1 => bt r2 s1 g1 k)
  | Opt r1 =>
      match bt r1 s g k with
      | Some x => Some x
      | None => k s g
      end
  | Star p => star_bt p s (fun s' => k s' g)
  | Group r1 => bt r1 s g (fun s' _ => k s' (Some (consumed s s')))
  end.

(** A match object: [group(0)], [group(1)] and the text after the match. *)
Record re_match := {
  group0 : string;
  group1 : option string;
  after : string
}.

(** [pattern.match] at the start of [s]. *)
Definition match_at (r : regex) (s : string) : option re_match :=
  bt r s None
    (fun s' g => Some {| group0 := consumed s s'; group1 := g; after := s' |}).

(** [re.sub(pattern, repl, s)]: the leftmost match is replaced, the scan
    goes on after it; a character where no match starts is copied. The
    replacement function may raise and may log warnings. The fuel bounds the
    number of steps; [re_sub] gives enough of it. *)
Fixpoint sub_from (fuel : nat) (r : regex)
    (repl : re_match -> option (string * list string)) (s : string)
  : option (string * list string) :=
  match s with
  | EmptyString => Some (EmptyString, [])
  | String c s' =>
      match fuel with
      | 0 => None
      | S fuel' =>
          match match_at r s with
          | Some m =>
              '(text, warnings) ← repl m;
              '(out, warnings') ← sub_from fuel' r repl (after m);
              Some (text +:+ out, warnings ++ warnings')
          | None =>
              '(out, warnings') ← sub_from fuel' r repl s';
              Some (String c out, warnings')
          end
      end
  end.

Definition re_sub (r : regex) (repl : re_match -> option (string * list string))
    (s : string) : option (string * list string) :=
  sub_from (String.length s) r repl s.

(** [\s] on code points below 256: the ASCII whitespace, the separators
    0x1c to 0x1f, NEL and the no-break space. *)
Definition is_space (c : ascii) : bool :=
  let n := nat_of_ascii c in
  (9 <=? n) && (n <=? 13) || (28 <=? n) && (n <=? 32) ||
  (n =? 133) || (n =? 160).

(** [\d] on code points below 256. *)
Definition is_digit (c : ascii) : bool :=
  let n := nat_of_ascii c in (48 <=? n) && (n <=? 57).

(** The class of the two quote characters. *)
Definition is_quote (c : ascii) : bool :=
  Ascii.eqb c "034" || Ascii.eqb c "'".

(** The class [.,;:] *)
Definition is_punct (c : ascii) : bool :=
  Ascii.eqb c "." || Ascii.eqb c "," || Ascii.eqb c ";" || Ascii.eqb c ":".

(** The pattern of a citation tag: [<cite], whitespace, [source], [=] with
    optional whitespace around it, an optional quote, the id in group 1, an
    optional quote, and [/>], with optional whitespace in between. *)
Definition cite_pattern : regex :=
  cat_all
    [ lits "<cite"; plus is_space; lits "source"; Star is_space; Lit "=";
      Star is_space; Opt (Class is_quote); Star is_space;
      Group (Cat (lits "src-") (plus is_digit));
      Star is_space; Opt (Class is_quote); Star is_space; lits "/>" ].

(** The pattern of the cleanup pass: whitespace before a punctuation mark. *)
Definition cleanup_pattern : regex :=
  Cat (plus is_space) (Group (Class is_punct)).

(** ** [citation_replacement_callback] *)

Definition invalid_tag_warning (tag : string) : string :=
  "Invalid citation tag found and removed: " +:+ tag.

(** The replacement function of the first pass. [sources.get(short_id)] is
    falsy when the id is missing and when its entry is an empty dict. *)
Definition tag_replacer (srcs : gmap string source_info) (m : re_match)
  : option (string * list string) :=
  match (short_id ← group1 m; srcs !! short_id) with
  | Some source_info =>
      if source_truthy source_info then
        let display_text :=
          default (default (PyStr (default "" (group1 m))) (src_domain source_info))
                  (src_title source_info) in
        url ← src_url source_info;
        Some (" [" +:+ py_format display_text +:+ "](" +:+ py_format url +:+ ")", [])
      else Some ("", [invalid_tag_warning (group0 m)])
  | None => Some ("", [invalid_tag_warning (group0 m)])
  end.

(** The replacement template of the second pass: group 1. *)
Definition keep_group1 (m : re_match) : option (string * list string) :=
  Some (default "" (group1 m), []).

(** The first pass alone. *)
Definition replace_tags (srcs : gmap string source_info) (text : string)
  : option (string * list string) :=
  re_sub cite_pattern (tag_replacer srcs) text.

(** The second pass alone. *)
Definition cleanup (text : string) : string :=
  match re_sub cleanup_pattern keep_group1 text with
  | Some (out, _) => out
  | None => text
  end.

(** The text transformation of the callback: both passes, with the warnings
    that were logged. *)
Definition render (text : string) (srcs : gmap string source_info)
  : option (string * list string) :=
  '(processed_report, warnings) ← replace_tags srcs text;
  Some (cleanup processed_report, warnings).

(** The callback: the state afterwards, the text of the returned content and
    the warnings. *)
Definition citation_replacement_callback (st : State)
  : option (State * string * list string) :=
  let final_report := default "" (final_cited_report st) in
  let srcs := default ∅ (sources st) in
  '(processed_report, warnings) ← render final_report srcs;
  Some ({| url_to_short_id := url_to_short_id st;
           sources := sources st;
           final_cited_report := final_cited_report st;
           final_report_with_citations := Some processed_report;
           research_evaluation := research_evaluation st |},
        processed_report, warnings).

(** ** [EscalationChecker] *)

(** An ADK event, reduced to its author and the [escalate] action;
    [Event(author=name)] leaves the action unset. *)
Record AgentEvent := {
  author : string;
  escalate : option bool
}.

(** [EscalationChecker._run_async_impl]: the events the generator yields for
    the session state [st]. It writes nothing. *)
Definition EscalationChecker_run (name : string) (st : State) : list AgentEvent :=
  let evaluation_result := research_evaluation st in
  if match evaluation_result with
     | Some result =>
         feedback_truthy result && bool_decide (grade result = Some "pass")
     | None => false
     end
  then [ {| author := name; escalate := Some true |} ]
  else [ {| author := name; escalate := None |} ].

(** [event.actions.escalate] read as a condition. *)
Definition escalates (e : AgentEvent) : bool :=
  match escalate e with
  | Some b => b
  | None => false
  end.

(** ** The bounded retry loop *)

(** Modelled from the spec: the stage contract of the loop controller
    ([LoopAgent] of the ADK, whose code is not under src/). A stage maps
    the shared state to the new state and its escalate signal, or fails
    ([None]). *)
Definition stage : Type := State -> option (State * bool).

(** Modelled from the spec: the two ways the loop controller ends, by an
    escalate signal or by exhaustion of its iteration budget. *)
Inductive loop_exit :=
| Escalated
| Exhausted.

(** Modelled from the spec: one iteration of the loop controller. The
    sub-stages run in order, and the iteration stops right after a stage
    that signals escalate. The names of the stages that ran are added to
    [trace]. *)
Fixpoint run_sub_agents (sub_agents : list (string * stage)) (st : State)
    (trace : list string) : option (State * list string * bool) :=
  match sub_agents with
  | [] => Some (st, trace, false)
  | (name, execute) :: rest =>
      '(st', signal) ← execute st;
      if signal : bool then Some (st', trace ++ [name], true)
      else run_sub_agents rest st' (trace ++ [name])
  end.

(** Modelled from the spec: the loop controller. It repeats the iteration
    until a stage signals escalate or [max_iterations] iterations are
    done; a failing stage ends the run. The budget of the repository,
    [config.max_search_iterations], is not under src/ and is a parameter
    here. *)
Fixpoint loop_agent (max_iterations : nat) (sub_agents : list (string * stage))
    (st : State) (trace : list string)
  : option (loop_exit * State * list string) :=
  match max_iterations with
  | 0 => Some (Exhausted, st, trace)
  | S n =>
      '(st', trace', escalated) ← run_sub_agents sub_agents st trace;
      if escalated : bool then Some (Escalated, st', trace')
      else loop_agent n sub_agents st' trace'
  end.

(** The checker as a stage: it leaves the state as it is and signals
    escalate when one of its events carries the action. *)
Definition checker_stage (name : string) : stage :=
  fun st => Some (st, existsb escalates (EscalationChecker_run name st)).

(** The evaluation stored in the state has grade [pass]. *)
Definition graded_pass (st : State) : Prop :=
  exists result, research_evaluation st = Some result /\ grade result = Some "pass".

Section RefinementLoop.

(** The evaluator and the refiner are language-model agents: any functions
    of the state that may fail and never signal escalate. *)
Variables research_evaluator enhanced_search_executor : State -> option State.

Definition llm_stage (run : State -> option State) : stage :=
  fun st => st' ← run st; Some (st', false).

(** The [sub_agents] of [iterative_refinement_loop]. *)
Definition refinement_sub_agents : list (string * stage) :=
  [ ("research_evaluator", llm_stage research_evaluator);
    ("escalation_checker", checker_stage "escalation_checker");
    ("enhanced_search_executor", llm_stage enhanced_search_executor) ].

Definition iterative_refinement_loop (max_iterations : nat) (st : State)
  : option (loop_exit * State * list string) :=
  loop_agent max_iterations refinement_sub_agents st [].

(** The state at the start of iteration [j + 1] when no earlier iteration
    escalated, and the state its evaluator leaves. *)
Fixpoint iteration_start (j : nat) (st : State) : option State :=
  match j with
  | 0 => Some st
  | S j' =>
      st1 ← iteration_start j' st;
      st2 ← research_evaluator st1;
      enhanced_search_executor st2
  end.

Definition evaluated (j : nat) (st : State) : option State :=
  st1 ← iteration_start j st; research_evaluator st1.

(** In each of the first [n] iterations the evaluator returns, the
    evaluation it leaves does not pass, and the refiner returns. *)
Definition all_fail (n : nat) (st : State) : Prop :=
  forall j, j < n ->
    exists st1,
      evaluated j st = Some st1 /\
      ~ graded_pass st1 /\
      is_Some (enhanced_search_executor st1).

End RefinementLoop.

(** The stage names of a full iteration and of the one that escalates. *)
Definition full_iteration : list string :=
  ["research_evaluator"; "escalation_checker"; "enhanced_search_executor"].

Definition last_iteration : list string :=
  ["research_evaluator"; "escalation_checker"].

(** ** Notions of the specification *)

(** The URLs an event contributes, in chunk order. *)
Definition event_urls (event : Event) : list pystr :=
  match event_chunks event with
  | Some chunks => omap (fun chunk => web_uri <$> web chunk) chunks
  | None => []
  end.

(** First-seen order: each URL once, at the place of its first occurrence. *)
Fixpoint first_seen_from (seen urls : list pystr) : list pystr :=
  match urls with
  | [] => seen
  | u :: rest =>
      first_seen_from (if decide (u ∈ seen) then seen else seen ++ [u]) rest
  end.

Definition first_seen (urls : list pystr) : list pystr := first_seen_from [] urls.

(** The registry of a state: a missing key reads as the empty dict. *)
Definition index_of (st : State) : list (pystr * string) :=
  default [] (url_to_short_id st).

Definition sources_of (st : State) : gmap string source_info :=
  default ∅ (sources st).

(** The claims recorded for a short id. *)
Definition claims_at (srcs : gmap string source_info) (short_id : string)
  : list claim :=
  match srcs !! short_id with
  | Some si => default [] (src_supported_claims si)
  | None => []
  end.

(** A run of the pipeline, with the events ingested so far: the collector
    is invoked on any events, and the other stages write other keys. *)
Inductive run : list Event -> State -> Prop :=
| run_start : run [] empty_state
| run_collect history st events st' :
    run history st ->
    collect_research_sources_callback events st = Some st' ->
    run (history ++ events) st'
| run_other history st st' :
    run history st ->
    url_to_short_id st' = url_to_short_id st ->
    sources st' = sources st ->
    run history st'.

(** [src] keeps its fields in [src'], which may have more claims. *)
Definition source_extends (src src' : source_info) : Prop :=
  src_short_id src' = src_short_id src /\
  src_title src' = src_title src /\
  src_url src' = src_url src /\
  src_domain src' = src_domain src /\
  exists old more,
    src_supported_claims src = Some old /\
    src_supported_claims src' = Some (old ++ more).

(** The confidence of the claim for position [i] of a support, in the words
    of the specification. *)
Definition spec_confidence (support : GroundingSupport) (i : nat) : float :=
  match confidence_scores support with
  | Some scores =>
      match scores !! i with
      | Some score => score
      | None => 0.5%float
      end
  | None => 0.5%float
  end.

Definition support_text (support : GroundingSupport) : pystr :=
  match segment support with
  | Some sg => seg_text sg
  | None => PyStr ""
  end.

(** The claims of a support, with the short id each goes to: one for each
    position whose chunk index is in the local map. *)
Definition spec_support_claims (chunks_info : gmap Z string)
    (support : GroundingSupport) : list (string * claim) :=
  omap (fun '(i, chunk_idx) =>
          short_id ← chunks_info !! chunk_idx;
          Some (short_id,
                {| text_segment := support_text support;
                   confidence := spec_confidence support i |}))
       (imap (fun i chunk_idx => (i, chunk_idx))
             (default [] (grounding_chunk_indices support))).

(** Appending a list of claims, each to its source. *)
Fixpoint append_claims (cs : list (string * claim))
    (srcs : gmap string source_info) : option (gmap string source_info) :=
  match cs with
  | [] => Some srcs
  | (short_id, c) :: rest =>
      srcs' ← append_claim short_id c srcs; append_claims rest srcs'
  end.

(** The claims of a list for one short id, in order. *)
Definition claims_for (short_id : string) (cs : list (string * claim))
  : list claim :=
  snd <$> filter (fun p => p.1 = short_id) cs.

(** The local chunk map of an event, read off the index. *)
Fixpoint chunks_info_of (index : list (pystr * string)) (idx : nat)
    (chunks : list GroundingChunk) (info : gmap Z string) : gmap Z string :=
  match chunks with
  | [] => info
  | chunk :: rest =>
      chunks_info_of index (S idx) rest
        match web chunk with
        | Some w =>
            match dict_get index (web_uri w) with
            | Some short_id => <[Z.of_nat idx := short_id]> info
            | None => info
            end
        | None => info
        end
  end.

(** The claims an event brings, given the index after its URLs are in. *)
Definition event_claims (index : list (pystr * string)) (event : Event)
  : list (string * claim) :=
  match event_chunks event with
  | Some chunks =>
      let info := chunks_info_of index 0 chunks ∅ in
      mjoin (spec_support_claims info <$> event_supports event)
  | None => []
  end.

(** Every character of a string is in a class. *)
Fixpoint all_in (p : ascii -> bool) (s : string) : bool :=
  match s with
  | EmptyString => true
  | String c s' => p c && all_in p s'
  end.

(** An optional quote: nothing, or one of the two quote characters. *)
Definition opt_quote (q : string) : Prop :=
  q = "" \/ q = String "034" "" \/ q = "'".

(** The citation tags: the texts the pattern matches, with their id. *)
Inductive marker : string -> string -> Prop :=
| Marker ws1 ws2 ws3 q1 ws4 ds ws5 q2 ws6 :
    all_in is_space ws1 = true -> ws1 <> "" ->
    all_in is_space ws2 = true ->
    all_in is_space ws3 = true ->
    opt_quote q1 ->
    all_in is_space ws4 = true ->
    all_in is_digit ds = true -> ds <> "" ->
    all_in is_space ws5 = true ->
    opt_quote q2 ->
    all_in is_space ws6 = true ->
    marker ("<cite" +:+ ws1 +:+ "source" +:+ ws2 +:+ "=" +:+ ws3 +:+ q1 +:+ ws4
              +:+ "src-" +:+ ds +:+ ws5 +:+ q2 +:+ ws6 +:+ "/>")
           ("src-" +:+ ds).

(** A text holds a citation tag somewhere. *)
Definition contains_marker (text : string) : Prop :=
  exists before tag short_id rest,
    text = before +:+ tag +:+ rest /\ marker tag short_id.

(** The display text as the specification words it: the title if it is not
    empty, else the domain, else the short id. *)
Definition spec_display (si : source_info) (short_id : string) : string :=
  match src_title si with
  | Some (PyStr (String c t)) => String c t
  | _ =>
      match src_domain si with
      | Some (PyStr (String c d)) => String c d
      | _ => short_id
      end
  end.

(** The display text of the code: the value under [title] when the key is
    there, else the one under [domain], else the short id. *)
Definition display_of (si : source_info) (short_id : string) : pystr :=
  default (default (PyStr short_id) (src_domain si)) (src_title si).

(** The link a tag is replaced with. *)
Definition link (display url : string) : string :=
  " [" +:+ display +:+ "](" +:+ url +:+ ")".

(** ** Invariant of the collector *)

(** What holds of the local variables between two steps of the callback:
    the URLs of the index are distinct and carry the ids [src-1], [src-2],
    ... in order, the counter is one past the last id, the sources are the
    entries of these ids, each with its list of claims, and the local chunk
    map only names such ids. *)
Record locals_ok (l : locals) : Prop := LocalsOk {
  ok_nodup : NoDup (l_index l).*1;
  ok_ids : (l_index l).*2 = short_id_of <$> seq 1 (length (l_index l));
  ok_counter : l_counter l = length (l_index l) + 1;
  ok_dom : forall short_id,
    is_Some (l_sources l !! short_id) <-> short_id ∈ (l_index l).*2;
  ok_claims : forall short_id si,
    l_sources l !! short_id = Some si -> is_Some (src_supported_claims si);
  ok_info : forall i short_id,
    l_chunks_info l !! i = Some short_id -> short_id ∈ (l_index l).*2
}.

(** The locals the callback starts from in a state. *)
Definition locals_of (st : State) : locals :=
  {| l_index := index_of st;
     l_sources := sources_of st;
     l_counter := length (index_of st) + 1;
     l_chunks_info := ∅ |}.

(** The same for the registry a state holds. *)
Definition registry_ok (st : State) : Prop := locals_ok (locals_of st).

(** Every entry of [srcs] is still in [srcs'], with its fields, its claims
    and possibly more claims. *)
Definition sources_grow (srcs srcs' : gmap string source_info) : Prop :=
  forall short_id si,
    srcs !! short_id = Some si ->
    exists si', srcs' !! short_id = Some si' /\ source_extends si si'.

(** The URLs of a list of chunks. *)
Definition chunk_urls (chunks : list GroundingChunk) : list pystr :=
  omap (fun chunk => web_uri <$> web chunk) chunks.

(** The URLs of a list of events. *)
Definition history_urls (events : list Event) : list pystr :=
  mjoin (event_urls <$> events).

(** What the chunks of an event do to the local variables. *)
Record chunks_step (idx : nat) (chunks : list GroundingChunk) (l l' : locals)
  : Prop := ChunksStep {
  cs_ok : locals_ok l';
  cs_keys : (l_index l').*1 = first_seen_from (l_index l).*1 (chunk_urls chunks);
  cs_prefix : l_index l `prefix_of` l_index l';
  cs_keep : forall short_id si,
    l_sources l !! short_id = Some si -> l_sources l' !! short_id = Some si;
  cs_claims : forall short_id,
    claims_at (l_sources l') short_id = claims_at (l_sources l) short_id;
  cs_same : l_index l' = l_index l -> l_sources l' = l_sources l;
  cs_info : l_chunks_info l' =
    chunks_info_of (l_index l') idx chunks (l_chunks_info l);
  cs_known : Forall (fun u => u ∈ (l_index l').*1) (chunk_urls chunks)
}.

(** A source with more claims at the end of its list. *)
Definition add_claims (si : source_info) (more : list claim) : source_info :=
  {| src_short_id := src_short_id si;
     src_title := src_title si;
     src_url := src_url si;
     src_domain := src_domain si;
     src_supported_claims := Some (default [] (src_supported_claims si) ++ more) |}.

(** Every entry has its list of claims. *)
Definition sources_ready (srcs : gmap string source_info) : Prop :=
  forall short_id si,
    srcs !! short_id = Some si -> is_Some (src_supported_claims si).

(** The claims a list of events brings, given the index. *)
Definition history_claims (index : list (pystr * string)) (events : list Event)
  : list (string * claim) :=
  mjoin (event_claims index <$> events).

(** What a list of events does to the local variables. *)
Record event_step (events : list Event) (l l' : locals) : Prop := EventStep {
  es_ok : locals_ok l';
  es_keys :
    (l_index l').*1 = first_seen_from (l_index l).*1 (history_urls events);
  es_prefix : l_index l `prefix_of` l_index l';
  es_grow : sources_grow (l_sources l) (l_sources l');
  es_claims : forall short_id,
    claims_at (l_sources l') short_id =
    claims_at (l_sources l) short_id ++
    claims_for short_id (history_claims (l_index l') events);
  es_known : Forall (fun u => u ∈ (l_index l').*1) (history_urls events)
}.

(** ** Notions about the matcher *)

(** The text [s] does not start with a character of the class [p]. *)
Definition starts_outside (p : ascii -> bool) (s : string) : bool :=
  match s with
  | EmptyString => true
  | String c _ => negb (p c)
  end.

(** The match object of a tag [tag] with id [short_id], found before [rest]. *)
Definition tag_match (tag short_id rest : string) : re_match :=
  {| group0 := tag; group1 := Some short_id; after := rest |}.

(** No part of the regular expression can read the character [c]. *)
Fixpoint rejects (r : regex) (c : ascii) : bool :=
  match r with
  | Eps => true
  | Lit c' => negb (Ascii.eqb c' c)
  | Class p => negb (p c)
  | Cat r1 r2 => rejects r1 c && rejects r2 c
  | Opt r1 => rejects r1 c
  | Star p => negb (p c)
  | Group r1 => rejects r1 c
  end.

(** A match object seen from a text that goes on with [x]. *)
Definition extend (x : string) (m : re_match) : re_match :=
  {| group0 := group0 m; group1 := group1 m; after := after m +:+ x |}.

(** Every match of the pattern reads at least one character. *)
Definition progresses (r : regex) : Prop :=
  forall s m,
    match_at r s = Some m -> String.length (after m) < String.length s.

(** Every entry that is not an empty dict has the key [url], as the entries
    the collector writes do. *)
Definition sources_with_url (srcs : gmap string source_info) : Prop :=
  forall short_id si,
    srcs !! short_id = Some si -> source_truthy si = true ->
    is_Some (src_url si).

(** The pattern matches somewhere in the text. *)
Fixpoint has_match (s : string) : bool :=
  match match_at cite_pattern s with
  | Some _ => true
  | None =>
      match s with
      | EmptyString => false
      | String _ s' => has_match s'
      end
  end.

(** ** Sample data *)

Definition web_chunk (uri title domain : string) : GroundingChunk :=
  {| web := Some {| web_uri := PyStr uri;
                    web_title := PyStr title;
                    web_domain := PyStr domain |} |}.

Definition sample_support (text : string) (scores : option (list float))
    (indices : list Z) : GroundingSupport :=
  {| segment := Some {| seg_text := PyStr text |};
     confidence_scores := scores;
     grounding_chunk_indices := Some indices |}.

Definition sample_event (chunks : list GroundingChunk)
    (supports : list GroundingSupport) : Event :=
  {| grounding_metadata :=
       Some {| grounding_chunks := Some chunks;
               grounding_supports := Some supports |} |}.

(** The first event cites [a.com] and [b.com]; its support has one score
    for three indices, the second of which names no chunk. *)
Definition event_ab : Event :=
  sample_event
    [ web_chunk "https://a.com" "A" "a.com";
      {| web := None |};
      web_chunk "https://b.com" "b.com" "b.com" ]
    [ sample_support "claim text" (Some [0.75%float]) [0; 7; 2]%Z ].

(** The second event cites [b.com] again and [c.com]. *)
Definition event_bc : Event :=
  sample_event
    [ web_chunk "https://b.com" "B" "b.com";
      web_chunk "https://c.com" "C" "c.com" ]
    [ sample_support "more" None [1; 0]%Z ].

(** The state after the callback ran on the first event, and then on the
    session's two events. *)
Definition state_ab : State :=
  default empty_state (collect_research_sources_callback [event_ab] empty_state).

Definition state_abc : State :=
  default empty_state
    (collect_research_sources_callback [event_ab; event_bc] state_ab).

(** A state holding the evaluation [fb]. *)
Definition with_evaluation (fb : Feedback) (st : State) : State :=
  {| url_to_short_id := url_to_short_id st;
     sources := sources st;
     final_cited_report := final_cited_report st;
     final_report_with_citations := final_report_with_citations st;
     research_evaluation := Some fb |}.

Definition feedback_of (g : string) : Feedback :=
  {| grade := Some g; comment := Some ""; follow_up_queries := None |}.

(** An evaluator that always fails the research, one that passes it once a
    report is there, and a refiner that writes a report. *)
Definition strict_evaluator (st : State) : option State :=
  Some (with_evaluation (feedback_of "fail") st).

Definition lenient_evaluator (st : State) : option State :=
  Some (with_evaluation
          (feedback_of match final_cited_report st with
                       | Some _ => "pass"
                       | None => "fail"
                       end) st).

Definition sample_refiner (st : State) : option State :=
  Some {| url_to_short_id := url_to_short_id st;
          sources := sources st;
          final_cited_report := Some "refined";
          final_report_with_citations := final_report_with_citations st;
          research_evaluation := research_evaluation st |}.

(** The double quote character, as a string. *)
Definition dq : string := String "034" "".

(** The tag as the report composer is told to write it. *)
Definition cite_tag (short_id : string) : string :=
  "<cite source=" +:+ dq +:+ short_id +:+ dq +:+ " />".

(** The entry a source mapping gives for [{title: "A", url: "https://a.com"}]. *)
Definition source_a : source_info :=
  {| src_short_id := None;
     src_title := Some (PyStr "A");
     src_url := Some (PyStr "https://a.com");
     src_domain := None;
     src_supported_claims := None |}.

Definition sources_a : gmap string source_info := {[ "src-1" := source_a ]}.

(** The sources the collector leaves for a chunk whose title is empty. *)
Definition untitled_sources : gmap string source_info :=
  sources_of
    (default empty_state
       (collect_research_sources_callback
          [sample_event [web_chunk "https://a.com" "" "a.com"] []] empty_state)).

(** A tag written around another tag. *)
Definition nested_tags : string :=
  "<cite source=" +:+ dq +:+ "src-" +:+ cite_tag "src-9" +:+ "1" +:+ dq +:+ " />".

(** ** Notions about the history of a run *)

(** An event the callback passes over: it has no grounding metadata, or its
    list of chunks is missing or empty. *)
Definition no_chunks (event : Event) : Prop :=
  match grounding_metadata event with
  | None => True
  | Some gm => grounding_chunks gm = None \/ grounding_chunks gm = Some []
  end.

(** The state the callback leaves when it changes nothing: the two keys of
    the registry are written. *)
Definition with_registry (index : list (pystr * string))
    (srcs : gmap string source_info) (st : State) : State :=
  {| url_to_short_id := Some index;
     sources := Some srcs;
     final_cited_report := final_cited_report st;
     final_report_with_citations := final_report_with_citations st;
     research_evaluation := research_evaluation st |}.

(** The web references of an event and of a list of events, in order. *)
Definition event_webs (event : Event) : list GroundingChunkWeb :=
  match event_chunks event with
  | Some chunks => omap web chunks
  | None => []
  end.

Definition history_webs (events : list Event) : list GroundingChunkWeb :=
  mjoin (event_webs <$> events).

(** The first web reference with a given URL. *)
Fixpoint first_web (url : pystr) (webs : list GroundingChunkWeb)
  : option GroundingChunkWeb :=
  match webs with
  | [] => None
  | w :: rest => if decide (web_uri w = url) then Some w else first_web url rest
  end.

(** The entry the collector writes for the web reference [w] under the id
    [short_id], with the claims [claims]. *)
Definition entry_of (short_id : string) (w : GroundingChunkWeb)
    (claims : list claim) : source_info :=
  {| src_short_id := Some short_id;
     src_title := Some (web_title w);
     src_url := Some (web_uri w);
     src_domain := Some (web_domain w);
     src_supported_claims := Some claims |}.

(** Every URL of the index has the entry of its first web reference among
    [webs]. *)
Definition entries_ok (webs : list GroundingChunkWeb)
    (index : list (pystr * string)) (srcs : gmap string source_info) : Prop :=
  forall url short_id,
    dict_get index url = Some short_id ->
    exists w claims,
      first_web url webs = Some w /\
      srcs !! short_id = Some (entry_of short_id w claims).

(** Two values of the local variables that differ in the chunk map only. *)
Definition same_registry (l l' : locals) : Prop :=
  l_index l = l_index l' /\ l_sources l = l_sources l' /\
  l_counter l = l_counter l'.


(** The index and the sources agree with the web references [webs] read so
    far: the local variables are in order, the URLs of the index are those
    of [webs], and each has the entry of its first web reference. *)
Record webs_ok (webs : list GroundingChunkWeb) (l : locals) : Prop := WebsOk {
  wo_ok : locals_ok l;
  wo_keys : forall url, url ∈ (l_index l).*1 <-> url ∈ web_uri <$> webs;
  wo_entries : entries_ok webs (l_index l) (l_sources l)
}.


(** ** Notions about the cleanup pass *)

(** The text after the leading characters of a class. *)
Fixpoint skip_class (p : ascii -> bool) (s : string) : string :=
  match s with
  | EmptyString => EmptyString
  | String c s' => if p c then skip_class p s' else s
  end.

(** The text is optional whitespace and then a punctuation mark. *)
Definition before_punct (s : string) : bool :=
  match skip_class is_space s with
  | EmptyString => false
  | String c _ => is_punct c
  end.

(** The text without the whitespace that stands before a punctuation
    mark: a whitespace character goes when only whitespace separates it
    from the next [.], [,], [;] or [:]. *)
Fixpoint strip_spaces (s : string) : string :=
  match s with
  | EmptyString => EmptyString
  | String c s' =>
      if is_space c && before_punct s' then strip_spaces s'
      else String c (strip_spaces s')
  end.

(** Somewhere in the text whitespace stands before a punctuation mark. *)
Fixpoint has_gap (s : string) : bool :=
  match s with
  | EmptyString => false
  | String c s' => is_space c && before_punct s' || has_gap s'
  end.

(** The characters of the text that are not whitespace. *)
Fixpoint drop_spaces (s : string) : string :=
  match s with
  | EmptyString => EmptyString
  | String c s' => if is_space c then drop_spaces s' else String c (drop_spaces s')
  end.

(** ** Notions about the claims of a support *)

(** The claims the chunk indices [chunk_indices] bring when they stand at
    the positions from [i] on: one for each index that is in the local
    map, with the confidence of its own position. *)
Fixpoint claims_from (chunks_info : gmap Z string) (support : GroundingSupport)
    (i : nat) (chunk_indices : list Z) : list (string * claim) :=
  match chunk_indices with
  | [] => []
  | chunk_idx :: rest =>
      match chunks_info !! chunk_idx with
      | Some short_id =>
          [ (short_id, {| text_segment := support_text support;
                          confidence := spec_confidence support i |}) ]
      | None => []
      end ++ claims_from chunks_info support (S i) rest
  end.

(** Every id of the local map has an entry in the sources. *)
Definition info_known (chunks_info : gmap Z string)
    (srcs : gmap string source_info) : Prop :=
  forall chunk_idx short_id,
    chunks_info !! chunk_idx = Some short_id -> is_Some (srcs !! short_id).

(** The sources cannot take a claim for [short_id]: they have no entry
    under it, or the entry has no list of claims. *)
Definition entry_unusable (srcs : gmap string source_info) (short_id : string)
  : Prop :=
  srcs !! short_id = None \/
  exists si, srcs !! short_id = Some si /\ src_supported_claims si = None.

(** ** Notions about a text and its tags *)

(** A text cut at its tags: after the text before the first tag, each tag
    with its id and the text that follows it, up to the next tag. *)
Fixpoint tagged_text (items : list (string * string * string)) : string :=
  match items with
  | [] => ""
  | (tag, _, seg) :: rest => tag +:+ seg +:+ tagged_text rest
  end.

(** Each tag is a tag of the pattern and no text between tags holds one. *)
Definition cut_ok (items : list (string * string * string)) : Prop :=
  Forall (fun '(tag, short_id, seg) =>
            marker tag short_id /\ ~ contains_marker seg) items.

(** What the first pass is to make of the tags and the text after each: the
    replacement of the tag, then the text as it is. *)
Fixpoint replace_items (srcs : gmap string source_info)
    (items : list (string * string * string)) : option (string * list string) :=
  match items with
  | [] => Some ("", [])
  | (tag, short_id, seg) :: rest =>
      '(text, w) ← tag_replacer srcs (tag_match tag short_id (seg +:+ tagged_text rest));
      '(out, w') ← replace_items srcs rest;
      Some (text +:+ seg +:+ out, w ++ w')
  end.

(** * Properties *)

(** ** Dictionaries *)

Section PyDictFacts.
Context {K V : Type} `{EqDecision K}.
Implicit Types (d : list (K * V)) (k : K) (v : V).

Lemma dict_contains_elem d k : dict_contains d k = true <-> k ∈ d.*1.
Proof.
  induction d as [|[k' v'] d IH]; simpl.
  - split; [discriminate | intros Hin; inversion Hin].
  - destruct (decide (k = k')) as [->|Hne].
    + split; [intros _; left | reflexivity].
    + rewrite IH. split; [by right | intros Hin].
      apply elem_of_cons in Hin as [?|?]; [congruence | done].
Qed.

Lemma dict_contains_false d k : dict_contains d k = false <-> k ∉ d.*1.
Proof.
  rewrite <- dict_contains_elem. destruct (dict_contains d k); split; congruence.
Qed.

Lemma dict_get_is_Some d k : k ∈ d.*1 -> is_Some (dict_get d k).
Proof.
  induction d as [|[k' v'] d IH]; simpl; [by intros ?%elem_of_nil|].
  intros Hin. destruct (decide (k = k')); [by eexists|].
  apply elem_of_cons in Hin as [?|?]; [done | auto].
Qed.

Lemma dict_get_elem d k v : dict_get d k = Some v -> (k, v) ∈ d.
Proof.
  induction d as [|[k' v'] d IH]; simpl; [done|].
  destruct (decide (k = k')) as [->|]; intros Hget.
  - injection Hget as ->. left.
  - right. auto.
Qed.

Lemma dict_get_value d k v : dict_get d k = Some v -> v ∈ d.*2.
Proof.
  intros Hget%dict_get_elem. apply list_elem_of_fmap. by exists (k, v).
Qed.

Lemma dict_set_new d k v : k ∉ d.*1 -> dict_set d k v = d ++ [(k, v)].
Proof.
  induction d as [|[k' v'] d IH]; simpl; [done|].
  intros Hnin. apply not_elem_of_cons in Hnin as [Hne Hnin].
  destruct (decide (k = k')); [done|]. by rewrite IH.
Qed.

Lemma dict_get_app_l d d' k v :
  dict_get d k = Some v -> dict_get (d ++ d') k = Some v.
Proof.
  induction d as [|[k' v'] d IH]; simpl; [done|].
  destruct (decide (k = k')); auto.
Qed.

Lemma dict_get_app_new d k v : k ∉ d.*1 -> dict_get (d ++ [(k, v)]) k = Some v.
Proof.
  induction d as [|[k' v'] d IH]; simpl.
  - intros _. by rewrite decide_True.
  - intros Hnin. apply not_elem_of_cons in Hnin as [Hne Hnin].
    destruct (decide (k = k')); [done | auto].
Qed.

Lemma dict_get_prefix d d' k v :
  d `prefix_of` d' -> dict_get d k = Some v -> dict_get d' k = Some v.
Proof. intros [rest ->]. apply dict_get_app_l. Qed.

(** With distinct values, a value has one key. *)
Lemma dict_get_inj d k1 k2 v :
  NoDup d.*2 -> dict_get d k1 = Some v -> dict_get d k2 = Some v -> k1 = k2.
Proof.
  induction d as [|[k' v'] d IH]; simpl; [done|].
  intros Hnd H1 H2. apply NoDup_cons in Hnd as [Hnin Hnd].
  destruct (decide (k1 = k')) as [->|], (decide (k2 = k')) as [->|]; try done.
  - injection H1 as ->. by apply dict_get_value in H2.
  - injection H2 as ->. by apply dict_get_value in H1.
  - eauto.
Qed.

End PyDictFacts.

(** ** Short ids *)

Lemma short_id_of_inj n m : short_id_of n = short_id_of m -> n = m.
Proof.
  unfold short_id_of. intros Heq.
  apply (inj (String.append "src-")) in Heq. by apply (inj pretty) in Heq.
Qed.

Lemma short_ids_NoDup k n : NoDup (short_id_of <$> seq k n).
Proof.
  apply NoDup_fmap_2; [|apply NoDup_seq].
  intros ? ?. apply short_id_of_inj.
Qed.

(** ** First-seen order *)

Lemma first_seen_from_app seen us1 us2 :
  first_seen_from seen (us1 ++ us2) =
  first_seen_from (first_seen_from seen us1) us2.
Proof. revert seen. induction us1 as [|u us1 IH]; intros seen; simpl; auto. Qed.

Lemma first_seen_from_known seen us :
  Forall (fun u => u ∈ seen) us -> first_seen_from seen us = seen.
Proof.
  induction 1 as [|u us Hu _ IH]; simpl; [done|]. by rewrite decide_True.
Qed.

Lemma first_seen_from_NoDup seen us : NoDup seen -> NoDup (first_seen_from seen us).
Proof.
  revert seen. induction us as [|u us IH]; intros seen Hnd; simpl; [done|].
  apply IH. destruct (decide (u ∈ seen)); [done|].
  apply NoDup_app. split_and!; [done| |apply NoDup_singleton].
  intros x Hx ->%list_elem_of_singleton. done.
Qed.

Lemma first_seen_from_elem seen us u :
  u ∈ first_seen_from seen us <-> u ∈ seen \/ u ∈ us.
Proof.
  revert seen. induction us as [|u' us IH]; intros seen; simpl.
  - split; [auto | intros [?|Hin]; [done | inversion Hin]].
  - rewrite IH. destruct (decide (u' ∈ seen)) as [Hin|Hnin].
    + rewrite elem_of_cons. split; [intros [?|?]; auto | intros [?|[->|?]]; auto].
    + rewrite elem_of_app, list_elem_of_singleton, elem_of_cons. tauto.
Qed.

(** ** The chunk loop *)

Lemma source_extends_refl si :
  is_Some (src_supported_claims si) -> source_extends si si.
Proof.
  intros [cl Hcl]. unfold source_extends.
  split_and!; try done. exists cl, []. by rewrite app_nil_r.
Qed.

Lemma source_extends_trans s1 s2 s3 :
  source_extends s1 s2 -> source_extends s2 s3 -> source_extends s1 s3.
Proof.
  intros (?&?&?&?&o1&m1&Ho1&Hm1) (?&?&?&?&o2&m2&Ho2&Hm2).
  unfold source_extends. split_and!; try congruence.
  exists o1, (m1 ++ m2). split; [done|].
  rewrite Hm2, app_assoc. congruence.
Qed.

Lemma sources_grow_trans s1 s2 s3 :
  sources_grow s1 s2 -> sources_grow s2 s3 -> sources_grow s1 s3.
Proof.
  intros H12 H23 id si Hsi.
  destruct (H12 _ _ Hsi) as (si2 & Hsi2 & He12).
  destruct (H23 _ _ Hsi2) as (si3 & Hsi3 & He23).
  exists si3. eauto using source_extends_trans.
Qed.

Lemma chunk_body_step idx chunk l :
  locals_ok l -> exists l', chunk_body idx chunk l = Some l' /\ chunks_step idx [chunk] l l'.
Proof.
  intros Hok. unfold chunk_body, chunk_urls. simpl.
  destruct (web chunk) as [w|] eqn:Hweb; simpl.
  2:{ exists l. split; [done|].
      split; simpl; rewrite ?Hweb; simpl; auto; done. }
  destruct (dict_contains (l_index l) (web_uri w)) eqn:Hin; simpl.
  - (* a URL the index has *)
    apply dict_contains_elem in Hin.
    destruct (dict_get_is_Some _ _ Hin) as [id Hid]. rewrite Hid. simpl.
    eexists. split; [done|].
    split; simpl; rewrite ?Hweb, ?Hid; simpl; auto.
    + destruct Hok as [Hnd Hids Hcnt Hdom Hcl Hinfo]. split; simpl; auto.
      intros i id'. rewrite lookup_insert. case_decide.
      * intros [= <-]. by eapply dict_get_value.
      * apply Hinfo.
    + by rewrite decide_True.
  - (* a new URL *)
    apply dict_contains_false in Hin.
    rewrite (dict_set_new _ _ _ Hin), (dict_get_app_new _ _ _ Hin). simpl.
    set (id := short_id_of (l_counter l)).
    assert (Hfresh : id ∉ (l_index l).*2).
    { destruct Hok as [Hnd Hids Hcnt Hdom Hcl Hinfo].
      rewrite Hids. unfold id. rewrite Hcnt.
      intros (n & Hn%short_id_of_inj & Hseq%elem_of_seq)%list_elem_of_fmap. lia. }
    eexists. split; [done|].
    split; simpl; rewrite ?Hweb; simpl.
    + destruct Hok as [Hnd Hids Hcnt Hdom Hcl Hinfo]. split; simpl.
      * rewrite fmap_app. apply NoDup_app. split_and!; [done| |apply NoDup_singleton].
        intros x Hx ->%list_elem_of_singleton. done.
      * rewrite fmap_app, length_app, Hids. simpl.
        rewrite Nat.add_1_r, seq_S, fmap_app. simpl.
        unfold id. by rewrite Hcnt, Nat.add_1_r.
      * rewrite length_app. simpl. lia.
      * intros id'. rewrite fmap_app, elem_of_app. simpl.
        rewrite list_elem_of_singleton, lookup_insert. case_decide as Hd.
        -- subst id'. split; [auto | by eexists].
        -- rewrite Hdom. split; [auto | intros [?|?]; [done | congruence]].
      * intros id' si. rewrite lookup_insert. case_decide.
        -- intros [= <-]. by eexists.
        -- apply Hcl.
      * intros i id'. rewrite fmap_app, elem_of_app. rewrite lookup_insert.
        case_decide.
        -- intros [= <-]. right. simpl. left.
        -- intros ?%Hinfo. by left.
    + by rewrite fmap_app, decide_False.
    + by apply prefix_app_r.
    + intros id' si Hsi. rewrite lookup_insert_ne; [done|].
      intros <-. apply Hfresh, (ok_dom _ Hok). by eexists.
    + intros id'. unfold claims_at. rewrite lookup_insert. case_decide; [|done].
      subst id'. simpl.
      destruct (l_sources l !! id) eqn:Hsi; [|done].
      exfalso. apply Hfresh, (ok_dom _ Hok). by eexists.
    + intros Heq. apply (f_equal length) in Heq.
      rewrite length_app in Heq. simpl in Heq. lia.
    + by rewrite (dict_get_app_new _ _ _ Hin).
    + constructor; [|done]. rewrite fmap_app, elem_of_app. right. simpl. left.
Qed.

Lemma chunk_urls_cons chunk chunks :
  chunk_urls (chunk :: chunks) = chunk_urls [chunk] ++ chunk_urls chunks.
Proof. unfold chunk_urls. simpl. by destruct (web chunk). Qed.

Lemma chunks_info_of_prefix index index' idx chunks info :
  index `prefix_of` index' ->
  Forall (fun u => u ∈ index.*1) (chunk_urls chunks) ->
  chunks_info_of index idx chunks info = chunks_info_of index' idx chunks info.
Proof.
  intros Hpre. revert idx info.
  induction chunks as [|chunk chunks IH]; intros idx info Hknown; simpl; [done|].
  rewrite chunk_urls_cons in Hknown. apply Forall_app in Hknown as [Hc Hrest].
  rewrite IH by done. f_equal.
  destruct (web chunk) as [w|] eqn:Hweb; [|done].
  unfold chunk_urls in Hc. simpl in Hc. rewrite Hweb in Hc. simpl in Hc.
  apply Forall_cons in Hc as [Hin _].
  destruct (dict_get_is_Some _ _ Hin) as [id Hid].
  by rewrite Hid, (dict_get_prefix _ _ _ _ Hpre Hid).
Qed.

Lemma chunks_step_nil idx l : locals_ok l -> chunks_step idx [] l l.
Proof. intros Hok. by split. Qed.

Lemma chunks_step_cons idx chunk chunks l l1 l2 :
  chunks_step idx [chunk] l l1 ->
  chunks_step (S idx) chunks l1 l2 ->
  chunks_step idx (chunk :: chunks) l l2.
Proof.
  intros [Hok1 Hk1 Hp1 Hkeep1 Hcl1 Hsame1 Hinfo1 Hkn1]
         [Hok2 Hk2 Hp2 Hkeep2 Hcl2 Hsame2 Hinfo2 Hkn2].
  split.
  - done.
  - by rewrite chunk_urls_cons, first_seen_from_app, <- Hk1.
  - by etrans.
  - auto.
  - intros id. by rewrite Hcl2.
  - intros Heq.
    assert (l_index l1 = l_index l) as Heq1.
    { destruct Hp1 as [r1 Hr1], Hp2 as [r2 Hr2].
      rewrite Hr2, Hr1 in Heq. apply (f_equal length) in Heq.
      rewrite !length_app in Heq.
      destruct r1; [by rewrite Hr1, app_nil_r | simpl in Heq; lia]. }
    rewrite Hsame2, Hsame1; congruence.
  - rewrite Hinfo2. simpl. f_equal. rewrite Hinfo1. simpl.
    change (chunks_info_of (l_index l1) idx [chunk] (l_chunks_info l) =
            chunks_info_of (l_index l2) idx [chunk] (l_chunks_info l)).
    by apply chunks_info_of_prefix.
  - rewrite chunk_urls_cons. apply Forall_app. split; [|done].
    eapply Forall_impl; [exact Hkn1|]. simpl. intros u Hu.
    destruct Hp2 as [r ->]. rewrite fmap_app. apply elem_of_app. by left.
Qed.

Lemma chunks_loop_step chunks : forall idx l,
  locals_ok l ->
  exists l', chunks_loop idx chunks l = Some l' /\ chunks_step idx chunks l l'.
Proof.
  induction chunks as [|chunk chunks IH]; intros idx l Hok; simpl.
  - exists l. eauto using chunks_step_nil.
  - destruct (chunk_body_step idx chunk l Hok) as (l1 & -> & Hstep1). simpl.
    destruct (IH (S idx) l1 (cs_ok _ _ _ _ Hstep1)) as (l2 & -> & Hstep2).
    exists l2. eauto using chunks_step_cons.
Qed.

(** ** The support loop *)

Lemma guarded_score (scores : list float) i :
  (if decide (i < length scores) then scores !! i else Some 0.5%float) =
  Some (match scores !! i with Some score => score | None => 0.5%float end).
Proof.
  destruct (decide (i < length scores)) as [Hlt|Hge].
  - destruct (lookup_lt_is_Some_2 _ _ Hlt) as [score ->]. done.
  - rewrite lookup_ge_None_2 by lia. done.
Qed.

Lemma spec_confidence_default support i :
  spec_confidence support i =
  match default [] (confidence_scores support) !! i with
  | Some score => score
  | None => 0.5%float
  end.
Proof. unfold spec_confidence. by destruct (confidence_scores support). Qed.

(** The loop over the chunk indices of a support, from position [i] on. *)
Lemma indices_loop_claims info support idxs : forall i srcs,
  indices_loop info support (default [] (confidence_scores support)) i idxs srcs =
  append_claims
    (omap (fun '(j, chunk_idx) =>
             short_id ← info !! chunk_idx;
             Some (short_id,
                   {| text_segment := support_text support;
                      confidence := spec_confidence support j |}))
          (imap (fun j chunk_idx => (i + j, chunk_idx)) idxs))
    srcs.
Proof.
  induction idxs as [|chunk_idx idxs IH]; intros i srcs; simpl; [done|].
  unfold index_body. rewrite Nat.add_0_r.
  assert (Hshift : imap ((fun j chunk_idx => (i + j, chunk_idx)) ∘ S) idxs =
                   imap (fun j chunk_idx => (S i + j, chunk_idx)) idxs).
  { apply imap_ext. intros j x _. simpl. f_equal. lia. }
  rewrite Hshift.
  destruct (info !! chunk_idx) as [short_id|]; simpl.
  - rewrite guarded_score. simpl. rewrite <- spec_confidence_default.
    fold (support_text support).
    destruct (append_claim short_id _ srcs); simpl; [apply IH | done].
  - apply IH.
Qed.

Lemma support_body_claims info support srcs :
  support_body info support srcs =
  append_claims (spec_support_claims info support) srcs.
Proof. unfold support_body, spec_support_claims. apply indices_loop_claims. Qed.

Lemma append_claims_app cs1 cs2 srcs :
  append_claims (cs1 ++ cs2) srcs =
  append_claims cs1 srcs ≫= append_claims cs2.
Proof.
  revert srcs. induction cs1 as [|[id c] cs1 IH]; intros srcs; simpl; [done|].
  destruct (append_claim id c srcs); simpl; [apply IH | done].
Qed.

Lemma supports_loop_claims info supports : forall srcs,
  supports_loop info supports srcs =
  append_claims (mjoin (spec_support_claims info <$> supports)) srcs.
Proof.
  induction supports as [|support supports IH]; intros srcs; simpl; [done|].
  rewrite append_claims_app, support_body_claims.
  destruct (append_claims _ srcs); simpl; [apply IH | done].
Qed.

Lemma claims_for_cons_eq id c cs :
  claims_for id ((id, c) :: cs) = c :: claims_for id cs.
Proof. unfold claims_for. rewrite filter_cons_True by done. done. Qed.

Lemma claims_for_cons_ne id id' c cs :
  id' <> id -> claims_for id ((id', c) :: cs) = claims_for id cs.
Proof. intros Hne. unfold claims_for. by rewrite filter_cons_False. Qed.

Lemma claims_for_app id cs1 cs2 :
  claims_for id (cs1 ++ cs2) = claims_for id cs1 ++ claims_for id cs2.
Proof. unfold claims_for. by rewrite filter_app, fmap_app. Qed.

Lemma claims_for_absent id cs : id ∉ cs.*1 -> claims_for id cs = [].
Proof.
  induction cs as [|[id' c] cs IH]; simpl; [done|].
  intros Hnin. apply not_elem_of_cons in Hnin as [Hne Hnin].
  rewrite claims_for_cons_ne by done. auto.
Qed.

Lemma add_claims_nil si :
  is_Some (src_supported_claims si) -> add_claims si [] = si.
Proof.
  destruct si as [a b c d e]. intros [cl Hcl]. simpl in Hcl. subst e.
  unfold add_claims. simpl. by rewrite app_nil_r.
Qed.

Lemma add_claims_add si more1 more2 :
  add_claims (add_claims si more1) more2 = add_claims si (more1 ++ more2).
Proof. unfold add_claims. simpl. by rewrite app_assoc. Qed.

Lemma add_claims_extends si more :
  is_Some (src_supported_claims si) -> source_extends si (add_claims si more).
Proof.
  intros [cl Hcl]. unfold source_extends, add_claims. simpl.
  split_and!; try done. exists cl, more. by rewrite Hcl.
Qed.

Lemma append_claim_add id c srcs si :
  srcs !! id = Some si -> is_Some (src_supported_claims si) ->
  append_claim id c srcs = Some (<[id := add_claims si [c]]> srcs).
Proof.
  intros Hsi [cl Hcl]. unfold append_claim, add_claims.
  rewrite Hsi. simpl. rewrite Hcl. done.
Qed.

(** Appending a list of claims to sources that have their ids: the entry of
    each id gets the claims of the list that go to it, in order. *)
Lemma append_claims_lookup cs : forall srcs,
  sources_ready srcs ->
  Forall (fun p => is_Some (srcs !! p.1)) cs ->
  exists srcs',
    append_claims cs srcs = Some srcs' /\
    forall id,
      srcs' !! id = (fun si => add_claims si (claims_for id cs)) <$> srcs !! id.
Proof.
  induction cs as [|[id c] cs IH]; intros srcs Hready Hdom; simpl.
  - exists srcs. split; [done|]. intros id.
    destruct (srcs !! id) as [si|] eqn:Hsi; simpl; [|done].
    by rewrite add_claims_nil by eauto.
  - apply Forall_cons in Hdom as [[si Hsi] Hdom]. simpl in Hsi.
    rewrite (append_claim_add _ _ _ _ Hsi) by eauto. simpl.
    destruct (IH (<[id := add_claims si [c]]> srcs)) as (srcs' & -> & Hlook).
    + intros id' si'. rewrite lookup_insert. case_decide.
      * intros [= <-]. by eexists.
      * apply Hready.
    + eapply Forall_impl; [exact Hdom|]. intros [id' c'] Hsome. simpl in *.
      rewrite lookup_insert. case_decide; [by eexists | done].
    + exists srcs'. split; [done|]. intros id'. rewrite Hlook, lookup_insert.
      case_decide as Hd.
      * subst id'. rewrite Hsi. simpl.
        by rewrite add_claims_add, claims_for_cons_eq.
      * by rewrite claims_for_cons_ne.
Qed.

Lemma append_claims_claims_at cs srcs srcs' :
  Forall (fun p => is_Some (srcs !! p.1)) cs ->
  (forall id, srcs' !! id =
              (fun si => add_claims si (claims_for id cs)) <$> srcs !! id) ->
  forall id, claims_at srcs' id = claims_at srcs id ++ claims_for id cs.
Proof.
  intros Hdom Hlook id. unfold claims_at. rewrite Hlook.
  destruct (srcs !! id) as [si|] eqn:Hsi; simpl; [done|].
  rewrite claims_for_absent; [done|].
  intros ([id' c] & -> & Hin)%list_elem_of_fmap. simpl in Hsi.
  rewrite Forall_forall in Hdom. specialize (Hdom _ Hin). simpl in Hdom.
  rewrite Hsi in Hdom. by destruct Hdom.
Qed.

Lemma append_claims_grow cs srcs srcs' :
  sources_ready srcs ->
  (forall id, srcs' !! id =
              (fun si => add_claims si (claims_for id cs)) <$> srcs !! id) ->
  sources_grow srcs srcs'.
Proof.
  intros Hready Hlook id si Hsi. rewrite Hlook, Hsi. simpl.
  eexists. split; [done|]. apply add_claims_extends. eauto.
Qed.

(** ** The event loop *)

Lemma spec_support_claims_ids (info : gmap Z string) support id c :
  (id, c) ∈ spec_support_claims info support -> exists i, info !! i = Some id.
Proof.
  unfold spec_support_claims.
  intros ([j chunk_idx] & _ & Hsome)%list_elem_of_omap.
  destruct (info !! chunk_idx) as [id'|] eqn:Hinfo; simpl in Hsome; [|done].
  injection Hsome as <- _. eauto.
Qed.

Lemma event_urls_chunks event chunks :
  event_chunks event = Some chunks -> event_urls event = chunk_urls chunks.
Proof. unfold event_urls. by intros ->. Qed.

Lemma event_claims_prefix index index' event :
  index `prefix_of` index' ->
  Forall (fun u => u ∈ index.*1) (event_urls event) ->
  event_claims index event = event_claims index' event.
Proof.
  intros Hpre Hknown. unfold event_claims, event_urls in *.
  destruct (event_chunks event) as [chunks|]; [|done].
  by rewrite (chunks_info_of_prefix _ _ _ _ _ Hpre Hknown).
Qed.

Lemma locals_ok_sources_ready l : locals_ok l -> sources_ready (l_sources l).
Proof. intros Hok. exact (ok_claims _ Hok). Qed.

Lemma sources_grow_refl srcs : sources_ready srcs -> sources_grow srcs srcs.
Proof.
  intros Hready id si Hsi. exists si. eauto using source_extends_refl.
Qed.

Lemma history_urls_cons event events :
  history_urls (event :: events) = event_urls event ++ history_urls events.
Proof. done. Qed.

Lemma history_urls_one event : history_urls [event] = event_urls event.
Proof. unfold history_urls. simpl. by rewrite app_nil_r. Qed.

Lemma history_urls_app events1 events2 :
  history_urls (events1 ++ events2) =
  history_urls events1 ++ history_urls events2.
Proof. unfold history_urls. by rewrite fmap_app, join_app. Qed.

Lemma history_claims_cons index event events :
  history_claims index (event :: events) =
  event_claims index event ++ history_claims index events.
Proof. done. Qed.

Lemma history_claims_one index event :
  history_claims index [event] = event_claims index event.
Proof. unfold history_claims. simpl. by rewrite app_nil_r. Qed.

Lemma event_step_nil l : locals_ok l -> event_step [] l l.
Proof.
  intros Hok. split; simpl; auto.
  - apply sources_grow_refl, locals_ok_sources_ready, Hok.
  - intros id. by rewrite app_nil_r.
Qed.

Lemma event_body_step event l :
  locals_ok l ->
  exists l', event_body event l = Some l' /\ event_step [event] l l'.
Proof.
  intros Hok. unfold event_body.
  destruct (event_chunks event) as [chunks|] eqn:Hchunks.
  2:{ exists l. split; [done|].
      destruct (event_step_nil l Hok) as [? ? ? ? Hcl ?].
      split; rewrite ?history_urls_one, ?history_claims_one;
        unfold event_claims, event_urls; rewrite ?Hchunks; auto. }
  set (l0 := {| l_index := l_index l; l_sources := l_sources l;
                l_counter := l_counter l; l_chunks_info := ∅ |}).
  assert (Hok0 : locals_ok l0).
  { destruct Hok as [Hnd Hids Hcnt Hdom Hcl Hinfo]. by split. }
  destruct (chunks_loop_step chunks 0 l0 Hok0)
    as (l1 & -> & [Hok1 Hk1 Hp1 Hkeep1 Hcl1 _ Hinfo1 Hkn1]).
  simpl in *. rewrite supports_loop_claims.
  set (cs := mjoin (spec_support_claims (l_chunks_info l1) <$> event_supports event)).
  assert (Hids : Forall (fun p => is_Some (l_sources l1 !! p.1)) cs).
  { apply Forall_forall. intros [id c] Hin. simpl.
    apply list_elem_of_join in Hin as (cs' & Hin & Hcs').
    apply list_elem_of_fmap in Hcs' as (support & -> & _).
    apply spec_support_claims_ids in Hin as [i Hi].
    apply (ok_dom _ Hok1), (ok_info _ Hok1 i), Hi. }
  destruct (append_claims_lookup cs (l_sources l1)
              (locals_ok_sources_ready _ Hok1) Hids) as (srcs' & -> & Hlook).
  simpl. eexists. split; [done|].
  assert (Hcs : cs = event_claims (l_index l1) event).
  { unfold cs, event_claims. by rewrite Hchunks, Hinfo1. }
  split; simpl.
  - destruct Hok1 as [Hnd1 Hids1 Hcnt1 Hdom1 Hclp1 Hinf1]. split; simpl; auto.
    + intros id. rewrite <- Hdom1, Hlook. by rewrite fmap_is_Some.
    + intros id si'. rewrite Hlook.
      destruct (l_sources l1 !! id); simpl; [|done]. intros [= <-]. by eexists.
  - by rewrite history_urls_one, (event_urls_chunks _ _ Hchunks).
  - done.
  - eapply sources_grow_trans; [|eapply append_claims_grow; eauto].
    + intros id si Hsi. exists si. split; [auto|].
      apply source_extends_refl. eapply (ok_claims _ Hok), Hsi.
    + by apply locals_ok_sources_ready.
  - intros id. rewrite history_claims_one, <- Hcs.
    rewrite (append_claims_claims_at cs _ _ Hids Hlook). by rewrite Hcl1.
  - by rewrite history_urls_one, (event_urls_chunks _ _ Hchunks).
Qed.

Lemma event_step_cons event events l l1 l2 :
  event_step [event] l l1 -> event_step events l1 l2 ->
  event_step (event :: events) l l2.
Proof.
  intros [Hok1 Hk1 Hp1 Hg1 Hcl1 Hkn1] [Hok2 Hk2 Hp2 Hg2 Hcl2 Hkn2].
  rewrite history_urls_one in Hk1, Hkn1.
  setoid_rewrite history_claims_one in Hcl1.
  split; rewrite ?history_urls_cons.
  - done.
  - by rewrite first_seen_from_app, <- Hk1.
  - by etrans.
  - by eapply sources_grow_trans.
  - intros id. rewrite history_claims_cons, Hcl2, Hcl1, claims_for_app, <- app_assoc.
    by rewrite (event_claims_prefix _ _ _ Hp2 Hkn1).
  - apply Forall_app. split; [|done].
    eapply Forall_impl; [exact Hkn1|]. simpl. intros u Hu.
    destruct Hp2 as [r ->]. rewrite fmap_app. apply elem_of_app. by left.
Qed.

Lemma events_loop_step events : forall l,
  locals_ok l ->
  exists l', events_loop events l = Some l' /\ event_step events l l'.
Proof.
  induction events as [|event events IH]; intros l Hok; simpl.
  - exists l. eauto using event_step_nil.
  - destruct (event_body_step event l Hok) as (l1 & -> & Hstep1). simpl.
    destruct (IH l1 (es_ok _ _ _ Hstep1)) as (l2 & -> & Hstep2).
    exists l2. eauto using event_step_cons.
Qed.

(** ** The callback *)

Lemma locals_of_ok_start : registry_ok empty_state.
Proof.
  split; simpl; try done.
  - constructor.
  - intros id. unfold sources_of. simpl. rewrite lookup_empty.
    split; [by intros [? ?] | by intros ?%elem_of_nil].
Qed.

(** From a state whose registry is in order the callback returns, and the
    registry it leaves is the one of its last local variables. *)
Lemma callback_step events st :
  registry_ok st ->
  exists st',
    collect_research_sources_callback events st = Some st' /\
    registry_ok st' /\
    event_step events (locals_of st) (locals_of st') /\
    url_to_short_id st' = Some (index_of st') /\
    sources st' = Some (sources_of st') /\
    final_cited_report st' = final_cited_report st /\
    final_report_with_citations st' = final_report_with_citations st /\
    research_evaluation st' = research_evaluation st.
Proof.
  intros Hok. unfold collect_research_sources_callback.
  destruct (events_loop_step events (locals_of st) Hok) as (l' & Hloop & Hstep).
  unfold locals_of, index_of, sources_of in Hloop. rewrite Hloop. simpl.
  eexists. split; [done|].
  assert (Heq : locals_of
            {| url_to_short_id := Some (l_index l');
               sources := Some (l_sources l');
               final_cited_report := final_cited_report st;
               final_report_with_citations := final_report_with_citations st;
               research_evaluation := research_evaluation st |} =
          {| l_index := l_index l'; l_sources := l_sources l';
             l_counter := l_counter l'; l_chunks_info := ∅ |}).
  { unfold locals_of, index_of, sources_of. simpl.
    by rewrite (ok_counter _ (es_ok _ _ _ Hstep)). }
  unfold registry_ok. rewrite Heq.
  destruct Hstep as [[Hnd Hids Hcnt Hdom Hcl Hinfo] Hk Hp Hg Hc Hkn].
  split_and!; try done.
Qed.

Lemma registry_ok_same st st' :
  url_to_short_id st' = url_to_short_id st ->
  sources st' = sources st ->
  registry_ok st -> registry_ok st'.
Proof.
  intros Hidx Hsrc. unfold registry_ok, locals_of, index_of, sources_of.
  by rewrite Hidx, Hsrc.
Qed.

(** The registry of a run is in order and lists the URLs in first-seen
    order. *)
Lemma run_registry history st :
  run history st ->
  registry_ok st /\ (index_of st).*1 = first_seen (history_urls history).
Proof.
  induction 1 as [|history st events st' _ [Hok Hkeys] Hcall
                  |history st st' _ [Hok Hkeys] Hidx Hsrc].
  - split; [apply locals_of_ok_start | done].
  - destruct (callback_step events st Hok) as (st'' & Hcall' & Hok' & Hstep & _).
    assert (st'' = st') as -> by congruence.
    split; [done|].
    pose proof (es_keys _ _ _ Hstep) as Hk. simpl in Hk.
    rewrite Hk, Hkeys. unfold first_seen. by rewrite history_urls_app, first_seen_from_app.
  - split; [by eapply registry_ok_same|].
    unfold index_of in *. by rewrite Hidx.
Qed.

Lemma indices_loop_app info support scores before rest : forall i srcs,
  indices_loop info support scores i (before ++ rest) srcs =
  indices_loop info support scores i before srcs ≫=
  indices_loop info support scores (i + length before) rest.
Proof.
  induction before as [|chunk_idx before IH]; intros i srcs; simpl.
  - by rewrite Nat.add_0_r.
  - destruct (index_body info support scores i chunk_idx srcs); simpl; [|done].
    rewrite IH. by rewrite Nat.add_succ_r.
Qed.

(** The local chunk map only has entries for the positions of chunks that
    carry a web reference. *)
Lemma chunks_loop_info chunks : forall idx l l' z id,
  chunks_loop idx chunks l = Some l' ->
  l_chunks_info l' !! z = Some id ->
  l_chunks_info l !! z = Some id \/
  exists n chunk,
    z = Z.of_nat (idx + n) /\ chunks !! n = Some chunk /\ is_Some (web chunk).
Proof.
  induction chunks as [|chunk chunks IH]; intros idx l l' z id; simpl.
  - intros [= <-]. auto.
  - destruct (chunk_body idx chunk l) as [l1|] eqn:Hbody; simpl; [|done].
    intros Hloop Hz.
    destruct (IH _ _ _ _ _ Hloop Hz) as [Hz1|(n & c & -> & Hn & Hweb)].
    + unfold chunk_body in Hbody.
      destruct (web chunk) as [w|] eqn:Hw; [|injection Hbody as <-; auto].
      destruct (dict_get _ (web_uri w)) as [id'|]; simpl in Hbody; [|done].
      injection Hbody as <-. simpl in Hz1.
      rewrite lookup_insert in Hz1. case_decide as Hd.
      * right. exists 0, chunk. rewrite Nat.add_0_r, Hw. by eauto.
      * left. by destruct (dict_contains (l_index l) (web_uri w)).
    + right. exists (S n), c. split_and!; [f_equal; lia | done | done].
Qed.

(** ** The evidence registry *)

Lemma dict_get_lookup {K V} `{EqDecision K} (d : list (K * V)) n k v :
  NoDup d.*1 -> d !! n = Some (k, v) -> dict_get d k = Some v.
Proof.
  revert n. induction d as [|[k' v'] d IH]; intros n Hnd Hn; [done|].
  simpl in *. apply NoDup_cons in Hnd as [Hnin Hnd].
  destruct n as [|n]; simpl in Hn.
  - injection Hn as -> ->. by rewrite decide_True.
  - destruct (decide (k = k')) as [->|]; [|eauto].
    exfalso. apply Hnin, list_elem_of_fmap. exists (k', v).
    split; [done|]. by eapply list_elem_of_lookup_2.
Qed.

Lemma run_sample : run ([event_ab] ++ [event_ab; event_bc]) state_abc.
Proof.
  apply (run_collect [event_ab] state_ab).
  - apply (run_collect [] empty_state [event_ab] state_ab run_start).
    vm_compute. reflexivity.
  - vm_compute. reflexivity.
Defined.

(** C1. Over a run, whatever the invocations of the collector were, the
    URLs of the index are those of the ingested events in first-seen order,
    each once; their ids are [src-1], ..., [src-k] in that order, so the
    n-th URL seen first has the id [src-(n+1)]; no two URLs share an id;
    and the collector can always be invoked again. *)
Theorem index_first_seen_order history st :
  run history st ->
  (index_of st).*1 = first_seen (history_urls history) /\
  NoDup (index_of st).*1 /\
  (index_of st).*2 = short_id_of <$> seq 1 (length (index_of st)) /\
  (forall n url,
     first_seen (history_urls history) !! n = Some url ->
     dict_get (index_of st) url = Some (short_id_of (S n))) /\
  (forall url1 url2 short_id,
     dict_get (index_of st) url1 = Some short_id ->
     dict_get (index_of st) url2 = Some short_id ->
     url1 = url2) /\
  (forall events,
     exists st',
       collect_research_sources_callback events st = Some st' /\
       run (history ++ events) st').
Proof.
  intros Hrun. destruct (run_registry _ _ Hrun) as [Hok Hkeys].
  pose proof (ok_nodup _ Hok) as Hnd. pose proof (ok_ids _ Hok) as Hids.
  simpl in Hnd, Hids. split_and!; try done.
  - intros n url Hn. rewrite <- Hkeys, list_lookup_fmap in Hn.
    destruct (index_of st !! n) as [[k v]|] eqn:Hkv; simpl in Hn; [|done].
    injection Hn as ->.
    assert (Hv : (index_of st).*2 !! n = Some v)
      by (by rewrite list_lookup_fmap, Hkv).
    rewrite Hids, list_lookup_fmap in Hv.
    apply lookup_lt_Some in Hkv as Hlt.
    rewrite lookup_seq_lt in Hv by done. simpl in Hv. injection Hv as <-.
    by eapply dict_get_lookup.
  - intros url1 url2 id. apply dict_get_inj.
    rewrite Hids. apply short_ids_NoDup.
  - intros events.
    destruct (callback_step events st Hok) as (st' & Hcall & _).
    exists st'. split; [done|]. by eapply run_collect.
Qed.

Lemma index_first_seen_order_witness :
  (index_of state_abc).*1 =
    [PyStr "https://a.com"; PyStr "https://b.com"; PyStr "https://c.com"] /\
  (index_of state_abc).*2 = ["src-1"; "src-2"; "src-3"].
Proof.
  destruct (index_first_seen_order _ _ run_sample) as (Hkeys & _ & Hids & _).
  split.
  - rewrite Hkeys. vm_compute. reflexivity.
  - rewrite Hids. vm_compute. reflexivity.
Defined.

(** ** The claims a support stores *)

Lemma claims_from_omap info support idxs : forall i,
  omap (fun '(j, chunk_idx) =>
          short_id ← info !! chunk_idx;
          Some (short_id,
                {| text_segment := support_text support;
                   confidence := spec_confidence support j |}))
       (imap (fun j chunk_idx => (i + j, chunk_idx)) idxs) =
  claims_from info support i idxs.
Proof.
  induction idxs as [|chunk_idx idxs IH]; intros i; [done|].
  simpl. rewrite Nat.add_0_r.
  rewrite (imap_ext _ (fun j c => (S i + j, c)))
    by (intros j c _; unfold compose; f_equal; lia).
  rewrite IH. by destruct (info !! chunk_idx).
Qed.

Lemma spec_support_claims_from info support :
  spec_support_claims info support =
  claims_from info support 0 (default [] (grounding_chunk_indices support)).
Proof. unfold spec_support_claims. apply (claims_from_omap _ _ _ 0). Qed.

Lemma claims_from_app info support before rest : forall i,
  claims_from info support i (before ++ rest) =
  claims_from info support i before ++
  claims_from info support (i + length before) rest.
Proof.
  induction before as [|c before IH]; intros i; simpl.
  - by rewrite Nat.add_0_r.
  - rewrite IH, <- app_assoc. do 3 f_equal. lia.
Qed.

Lemma claims_from_ids info support idxs : forall i id c,
  (id, c) ∈ claims_from info support i idxs ->
  exists chunk_idx, info !! chunk_idx = Some id.
Proof.
  induction idxs as [|chunk_idx idxs IH]; intros i id c; simpl.
  - by intros ?%elem_of_nil.
  - rewrite elem_of_app. intros [Hin|Hin]; [|by eapply IH].
    destruct (info !! chunk_idx) as [id'|] eqn:Hinfo.
    + apply list_elem_of_singleton in Hin as [= -> _]. eauto.
    + by apply elem_of_nil in Hin.
Qed.

(** Appending claims to sources that have an entry for each of them
    returns, and each source has its old claims followed by the new ones. *)
Lemma append_claims_stored cs srcs :
  sources_ready srcs ->
  Forall (fun p => is_Some (srcs !! p.1)) cs ->
  exists srcs',
    append_claims cs srcs = Some srcs' /\
    forall id, claims_at srcs' id = claims_at srcs id ++ claims_for id cs.
Proof.
  intros Hready Hall.
  destruct (append_claims_lookup cs srcs Hready Hall) as (srcs' & Happ & Hlook).
  exists srcs'. split; [done|]. by apply append_claims_claims_at.
Qed.

(** The loop over the indices of a support, from any position. *)
Lemma indices_loop_stored info support idxs i srcs :
  sources_ready srcs -> info_known info srcs ->
  exists srcs',
    indices_loop info support (default [] (confidence_scores support))
      i idxs srcs = Some srcs' /\
    forall id,
      claims_at srcs' id =
      claims_at srcs id ++ claims_for id (claims_from info support i idxs).
Proof.
  intros Hready Hknown.
  rewrite indices_loop_claims, claims_from_omap.
  apply append_claims_stored; [done|].
  apply Forall_forall. intros [id c] Hin. simpl.
  destruct (claims_from_ids _ _ _ _ _ _ Hin) as [chunk_idx Hinfo].
  by eapply Hknown.
Qed.

Lemma support_body_stored info support srcs :
  sources_ready srcs -> info_known info srcs ->
  exists srcs',
    support_body info support srcs = Some srcs' /\
    forall id,
      claims_at srcs' id =
      claims_at srcs id ++
      claims_for id
        (claims_from info support 0
           (default [] (grounding_chunk_indices support))).
Proof. intros Hready Hknown. by apply indices_loop_stored. Qed.

(** One step of the loop over the indices, at an index of the local map. *)
Lemma index_body_stored info support i chunk_idx short_id srcs :
  sources_ready srcs -> info_known info srcs ->
  info !! chunk_idx = Some short_id ->
  exists srcs',
    index_body info support (default [] (confidence_scores support))
      i chunk_idx srcs = Some srcs' /\
    claims_at srcs' short_id =
      claims_at srcs short_id ++
      [ {| text_segment := support_text support;
           confidence := spec_confidence support i |} ] /\
    forall other, other <> short_id -> claims_at srcs' other = claims_at srcs other.
Proof.
  intros Hready Hknown Hinfo.
  destruct (indices_loop_stored info support [chunk_idx] i srcs Hready Hknown)
    as (srcs' & Hloop & Hclaims).
  simpl in Hloop, Hclaims. rewrite Hinfo in Hclaims. simpl in Hclaims.
  destruct (index_body _ _ _ _ _ _) as [srcs1|] eqn:Hbody; simpl in Hloop; [|done].
  injection Hloop as ->. exists srcs'. split_and!; [done | |].
  - by rewrite Hclaims, claims_for_cons_eq.
  - intros other Hne. rewrite Hclaims, claims_for_cons_ne by done.
    unfold claims_for. simpl. by rewrite app_nil_r.
Qed.

Lemma claims_from_elem info support idxs i chunk_idx short_id :
  idxs !! i = Some chunk_idx ->
  info !! chunk_idx = Some short_id ->
  claims_from info support 0 idxs =
  claims_from info support 0 (take i idxs) ++
  (short_id, {| text_segment := support_text support;
                confidence := spec_confidence support i |})
  :: claims_from info support (S i) (drop (S i) idxs).
Proof.
  intros Hi Hinfo. rewrite <- (take_drop_middle _ _ _ Hi) at 1.
  rewrite claims_from_app. simpl. rewrite Hinfo. simpl.
  rewrite length_take_le by (apply lookup_lt_Some in Hi; lia). done.
Qed.

(** C6. The claim a support stores for a chunk index of the local map, at
    position [i] of its indices, is appended to the claims of the source of
    that index and to no other; it carries the text of the support, and as
    confidence the score at position [i] when the scores have one, and 0.5
    when the support has no scores or fewer than [i + 1]. The loop over a
    support returns and stores, source by source, exactly the claims of
    [spec_support_claims], which has that claim for each such position. *)
Theorem support_claims_confidence info support srcs :
  sources_ready srcs -> info_known info srcs ->
  (exists srcs',
     support_body info support srcs = Some srcs' /\
     forall short_id,
       claims_at srcs' short_id =
       claims_at srcs short_id ++
       claims_for short_id (spec_support_claims info support)) /\
  (forall i chunk_idx short_id,
     default [] (grounding_chunk_indices support) !! i = Some chunk_idx ->
     info !! chunk_idx = Some short_id ->
     (short_id, {| text_segment := support_text support;
                   confidence := spec_confidence support i |})
     ∈ spec_support_claims info support) /\
  (forall i chunk_idx short_id scores score,
     info !! chunk_idx = Some short_id ->
     confidence_scores support = Some scores -> scores !! i = Some score ->
     exists srcs',
       index_body info support scores i chunk_idx srcs = Some srcs' /\
       claims_at srcs' short_id =
         claims_at srcs short_id ++
         [ {| text_segment := support_text support; confidence := score |} ] /\
       forall other,
         other <> short_id -> claims_at srcs' other = claims_at srcs other) /\
  (forall i chunk_idx short_id,
     info !! chunk_idx = Some short_id ->
     (confidence_scores support = None \/
      exists scores,
        confidence_scores support = Some scores /\ length scores <= i) ->
     exists srcs',
       index_body info support (default [] (confidence_scores support))
         i chunk_idx srcs = Some srcs' /\
       claims_at srcs' short_id =
         claims_at srcs short_id ++
         [ {| text_segment := support_text support;
              confidence := 0.5%float |} ] /\
       forall other,
         other <> short_id -> claims_at srcs' other = claims_at srcs other) /\
  (forall i scores score,
     confidence_scores support = Some scores -> scores !! i = Some score ->
     spec_confidence support i = score) /\
  (forall i scores,
     confidence_scores support = Some scores -> length scores <= i ->
     spec_confidence support i = 0.5%float) /\
  (forall i,
     confidence_scores support = None ->
     spec_confidence support i = 0.5%float).
Proof.
  intros Hready Hknown.
  assert (Hscore : forall i scores score,
            confidence_scores support = Some scores -> scores !! i = Some score ->
            spec_confidence support i = score).
  { intros i scores score Hs Hi. unfold spec_confidence. by rewrite Hs, Hi. }
  assert (Hshort : forall i scores,
            confidence_scores support = Some scores -> length scores <= i ->
            spec_confidence support i = 0.5%float).
  { intros i scores Hs Hi. unfold spec_confidence.
    by rewrite Hs, lookup_ge_None_2. }
  assert (Hnone : forall i,
            confidence_scores support = None ->
            spec_confidence support i = 0.5%float).
  { intros i Hs. unfold spec_confidence. by rewrite Hs. }
  split_and!; try done.
  - rewrite spec_support_claims_from. by apply support_body_stored.
  - intros i chunk_idx id Hi Hinfo.
    rewrite spec_support_claims_from, (claims_from_elem _ _ _ _ _ _ Hi Hinfo).
    apply elem_of_app. right. apply elem_of_cons. by left.
  - intros i chunk_idx id scores score Hinfo Hs Hi.
    destruct (index_body_stored info support i chunk_idx id srcs
                Hready Hknown Hinfo) as (srcs' & Hbody & Hclaims & Hother).
    rewrite Hs in Hbody. simpl in Hbody.
    rewrite (Hscore i scores score Hs Hi) in Hclaims. by exists srcs'.
  - intros i chunk_idx id Hinfo Hs.
    destruct (index_body_stored info support i chunk_idx id srcs
                Hready Hknown Hinfo) as (srcs' & Hbody & Hclaims & Hother).
    assert (spec_confidence support i = 0.5%float) as Hhalf.
    { destruct Hs as [Hs|(scores & Hs & Hi)]; [by apply Hnone|].
      by apply (Hshort i scores). }
    rewrite Hhalf in Hclaims. by exists srcs'.
Qed.

Lemma support_claims_confidence_witness :
  exists srcs',
    support_body {[ 0%Z := "src-1" ]}
      (sample_support "again" (Some [0.25%float]) [0; 0]%Z)
      (sources_of state_ab) = Some srcs' /\
    claims_at (sources_of state_ab) "src-1" =
      [ {| text_segment := PyStr "claim text"; confidence := 0.75%float |} ] /\
    claims_at srcs' "src-1" =
      [ {| text_segment := PyStr "claim text"; confidence := 0.75%float |};
        {| text_segment := PyStr "again"; confidence := 0.25%float |};
        {| text_segment := PyStr "again"; confidence := 0.5%float |} ].
Proof.
  assert (Hready : sources_ready (sources_of state_ab)).
  { intros id si Hsi.
    assert (Hrun : run ([] ++ [event_ab]) state_ab).
    { apply (run_collect [] empty_state [event_ab] state_ab run_start).
      vm_compute. reflexivity. }
    destruct (run_registry _ _ Hrun) as [Hok _].
    exact (ok_claims _ Hok id si Hsi). }
  assert (Hknown : info_known {[ 0%Z := "src-1" ]} (sources_of state_ab)).
  { intros chunk_idx id [_ <-]%lookup_singleton_Some.
    eexists. vm_compute. reflexivity. }
  destruct (support_claims_confidence {[ 0%Z := "src-1" ]}
              (sample_support "again" (Some [0.25%float]) [0; 0]%Z)
              (sources_of state_ab) Hready Hknown)
    as ((srcs' & Hbody & Hclaims) & _).
  exists srcs'. split_and!; [done | vm_compute; reflexivity |].
  rewrite Hclaims. vm_compute. reflexivity.
Defined.

Lemma index_unchanged l l' events :
  event_step events l l' ->
  Forall (fun u => u ∈ (l_index l).*1) (history_urls events) ->
  l_index l' = l_index l.
Proof.
  intros [_ Hk [r Hr] _ _ _] Hknown.
  rewrite (first_seen_from_known _ _ Hknown) in Hk.
  rewrite Hr in Hk |- *. rewrite fmap_app in Hk.
  apply (f_equal length) in Hk. rewrite length_app, !length_fmap in Hk.
  destruct r; [by rewrite app_nil_r | simpl in Hk; lia].
Qed.

(** Any sequence of invocations of the collector returns, keeps the index
    as a prefix of the new index and keeps every source. *)
Lemma callbacks_grow invocations : forall st,
  registry_ok st ->
  exists st',
    run_callbacks invocations st = Some st' /\
    registry_ok st' /\
    index_of st `prefix_of` index_of st' /\
    sources_grow (sources_of st) (sources_of st').
Proof.
  induction invocations as [|events invocations IH]; intros st Hok; simpl.
  - exists st. split_and!; try done.
    apply sources_grow_refl. exact (ok_claims _ Hok).
  - destruct (callback_step events st Hok) as (st1 & -> & Hok1 & Hs & _).
    simpl. destruct (IH st1 Hok1) as (st' & -> & Hok' & Hpre & Hgrow).
    exists st'. split_and!; try done.
    + etrans; [exact (es_prefix _ _ _ Hs) | done].
    + eapply sources_grow_trans; [exact (es_grow _ _ _ Hs) | done].
Qed.

(** C8. In a run, ingesting an event and then the same event again leaves
    the index and the set of sources as the first ingestion left them, and
    appends the claims of the event to their sources a second time; and any
    sequence of invocations of the collector returns, keeps the index as a
    prefix of the new index, and keeps every source, with its fields and
    the claims it had. *)
Theorem reingestion_duplicates_claims history st event :
  run history st ->
  (exists st1 st2,
     collect_research_sources_callback [event] st = Some st1 /\
     collect_research_sources_callback [event] st1 = Some st2 /\
     url_to_short_id st2 = url_to_short_id st1 /\
     dom (sources_of st2) = dom (sources_of st1) /\
     forall short_id,
       claims_at (sources_of st1) short_id =
         claims_at (sources_of st) short_id ++
         claims_for short_id (event_claims (index_of st1) event) /\
       claims_at (sources_of st2) short_id =
         claims_at (sources_of st1) short_id ++
         claims_for short_id (event_claims (index_of st1) event)) /\
  (forall invocations,
     exists st',
       run_callbacks invocations st = Some st' /\
       index_of st `prefix_of` index_of st' /\
       dom (sources_of st) ⊆ dom (sources_of st') /\
       sources_grow (sources_of st) (sources_of st')).
Proof.
  intros Hrun. destruct (run_registry _ _ Hrun) as [Hok _]. split.
  - destruct (callback_step [event] st Hok)
      as (st1 & Hc1 & Hok1 & Hs1 & Hu1 & _).
    destruct (callback_step [event] st1 Hok1)
      as (st2 & Hc2 & Hok2 & Hs2 & Hu2 & _).
    exists st1, st2.
    assert (Hidx : index_of st2 = index_of st1).
    { apply (index_unchanged _ _ _ Hs2). exact (es_known _ _ _ Hs1). }
    split_and!; try done.
    + by rewrite Hu1, Hu2, Hidx.
    + apply set_eq. intros id. rewrite !elem_of_dom.
      rewrite (ok_dom _ Hok1 id), (ok_dom _ Hok2 id). simpl. by rewrite Hidx.
    + intros id.
      pose proof (es_claims _ _ _ Hs1 id) as H1.
      pose proof (es_claims _ _ _ Hs2 id) as H2.
      rewrite history_claims_one in H1, H2. simpl in H1, H2.
      by rewrite <- Hidx at 2.
  - intros invocations.
    destruct (callbacks_grow invocations st Hok)
      as (st' & Hrun' & _ & Hpre & Hgrow).
    exists st'. split_and!; try done.
    intros id. rewrite !elem_of_dom. intros [si Hsi].
    destruct (Hgrow id si Hsi) as (si' & Hsi' & _). by eexists.
Qed.

Lemma reingestion_duplicates_claims_witness :
  claims_at (sources_of state_ab) "src-1" =
    [ {| text_segment := PyStr "claim text"; confidence := 0.75%float |} ] /\
  exists st2,
    collect_research_sources_callback [event_ab] state_ab = Some st2 /\
    url_to_short_id st2 = url_to_short_id state_ab /\
    claims_at (sources_of st2) "src-1" =
      [ {| text_segment := PyStr "claim text"; confidence := 0.75%float |};
        {| text_segment := PyStr "claim text"; confidence := 0.75%float |} ].
Proof.
  destruct (reingestion_duplicates_claims [] empty_state event_ab run_start)
    as [(st1 & st2 & H1 & H2 & Hidx & _ & Hclaims) _].
  assert (st1 = state_ab) as ->.
  { apply (inj Some). rewrite <- H1. vm_compute. reflexivity. }
  destruct (Hclaims "src-1") as [Hc1 Hc2].
  split; [rewrite Hc1; vm_compute; reflexivity|].
  exists st2. split_and!; [done | done |].
  rewrite Hc2, Hc1. vm_compute. reflexivity.
Defined.

(** C10. In a run the collector never fails, whatever chunk indices the
    supports of its events name, and an event adds to each source the
    claims of [event_claims]. An index that is not in the local chunk map
    adds no claim, and the other indices of the same support still add
    theirs: where the indices are [before ++ bad :: rest] with [bad] not in
    the map, the loop over the support returns, and each source has its old
    claims, then those of the indices [before] at the positions from 0,
    then those of the indices [rest] at the positions they stand at, past
    [bad]. Each index that is in the map has its claim stored, with the
    confidence of its own position. The local map has entries only for
    positions of chunks that carry a web reference, so an index out of
    range and the index of a chunk without one are not in it. *)
Theorem absent_chunk_index_skipped history st :
  run history st ->
  (forall events, is_Some (collect_research_sources_callback events st)) /\
  (forall event,
     exists st',
       collect_research_sources_callback [event] st = Some st' /\
       forall short_id,
         claims_at (sources_of st') short_id =
         claims_at (sources_of st) short_id ++
         claims_for short_id (event_claims (index_of st') event)) /\
  (forall info support srcs before bad rest,
     sources_ready srcs -> info_known info srcs ->
     grounding_chunk_indices support = Some (before ++ bad :: rest) ->
     info !! bad = None ->
     spec_support_claims info support =
       claims_from info support 0 before ++
       claims_from info support (S (length before)) rest /\
     exists srcs',
       support_body info support srcs = Some srcs' /\
       forall short_id,
         claims_at srcs' short_id =
         claims_at srcs short_id ++
         claims_for short_id (claims_from info support 0 before) ++
         claims_for short_id (claims_from info support (S (length before)) rest)) /\
  (forall info support srcs i chunk_idx short_id,
     sources_ready srcs -> info_known info srcs ->
     default [] (grounding_chunk_indices support) !! i = Some chunk_idx ->
     info !! chunk_idx = Some short_id ->
     exists srcs' earlier later,
       support_body info support srcs = Some srcs' /\
       claims_at srcs' short_id =
         claims_at srcs short_id ++ earlier ++
         {| text_segment := support_text support;
            confidence := spec_confidence support i |} :: later) /\
  (forall chunks l l' z,
     chunks_loop 0 chunks l = Some l' ->
     l_chunks_info l = ∅ ->
     (z < 0 \/ Z.of_nat (length chunks) <= z \/
      exists chunk, chunks !! Z.to_nat z = Some chunk /\ web chunk = None)%Z ->
     l_chunks_info l' !! z = None).
Proof.
  intros Hrun. destruct (run_registry _ _ Hrun) as [Hok _]. split_and!.
  - intros events.
    destruct (callback_step events st Hok) as (st' & -> & _). by eexists.
  - intros event.
    destruct (callback_step [event] st Hok) as (st' & Hcall & _ & Hstep & _).
    exists st'. split; [done|]. intros id.
    pose proof (es_claims _ _ _ Hstep id) as Hclaims.
    by rewrite history_claims_one in Hclaims.
  - intros info support srcs before bad rest Hready Hknown Hidx Hbad.
    assert (Hcut : claims_from info support 0 (before ++ bad :: rest) =
                   claims_from info support 0 before ++
                   claims_from info support (S (length before)) rest).
    { rewrite claims_from_app. simpl. by rewrite Hbad. }
    split.
    { by rewrite spec_support_claims_from, Hidx. }
    destruct (support_body_stored info support srcs Hready Hknown)
      as (srcs' & Hbody & Hclaims).
    exists srcs'. split; [done|]. intros id.
    rewrite Hclaims, Hidx. simpl. by rewrite Hcut, claims_for_app.
  - intros info support srcs i chunk_idx id Hready Hknown Hi Hinfo.
    destruct (support_body_stored info support srcs Hready Hknown)
      as (srcs' & Hbody & Hclaims).
    exists srcs', (claims_for id (claims_from info support 0
                     (take i (default [] (grounding_chunk_indices support))))),
      (claims_for id (claims_from info support (S i)
                     (drop (S i) (default [] (grounding_chunk_indices support))))).
    split; [done|].
    rewrite Hclaims, (claims_from_elem _ _ _ _ _ _ Hi Hinfo).
    by rewrite claims_for_app, claims_for_cons_eq.
  - intros chunks l l' z Hloop Hempty Hz.
    destruct (l_chunks_info l' !! z) as [id|] eqn:Hlook; [|done].
    exfalso.
    destruct (chunks_loop_info _ _ _ _ _ _ Hloop Hlook)
      as [Hin|(n & chunk & -> & Hn & [w Hw])].
    + by rewrite Hempty, lookup_empty in Hin.
    + simpl in Hz. apply lookup_lt_Some in Hn as Hlt.
      destruct Hz as [Hz|[Hz|(chunk' & Hn' & Hw')]]; [lia | lia |].
      rewrite Nat2Z.id in Hn'. congruence.
Qed.

Lemma absent_chunk_index_skipped_witness :
  is_Some (collect_research_sources_callback [event_ab; event_bc] state_ab) /\
  exists srcs',
    support_body {[ 0%Z := "src-1"; 2%Z := "src-2" ]}
      (sample_support "next" (Some [0.25; 0.125; 0.875]%float) [0; 7; 2]%Z)
      (sources_of state_ab) = Some srcs' /\
    claims_at srcs' "src-1" =
      [ {| text_segment := PyStr "claim text"; confidence := 0.75%float |};
        {| text_segment := PyStr "next"; confidence := 0.25%float |} ] /\
    claims_at srcs' "src-2" =
      [ {| text_segment := PyStr "claim text"; confidence := 0.5%float |};
        {| text_segment := PyStr "next"; confidence := 0.875%float |} ].
Proof.
  assert (Hrun : run ([] ++ [event_ab]) state_ab).
  { apply (run_collect [] empty_state [event_ab] state_ab run_start).
    vm_compute. reflexivity. }
  destruct (absent_chunk_index_skipped _ _ Hrun) as (Hsome & _ & Hskip & _).
  split; [apply Hsome|].
  destruct (run_registry _ _ Hrun) as [Hok _].
  assert (Hknown : info_known {[ 0%Z := "src-1"; 2%Z := "src-2" ]}
                     (sources_of state_ab)).
  { intros chunk_idx id Hlook.
    apply lookup_insert_Some in Hlook as [[_ <-]|[_ Hlook]].
    - eexists. vm_compute. reflexivity.
    - apply lookup_singleton_Some in Hlook as [_ <-].
      eexists. vm_compute. reflexivity. }
  destruct (Hskip {[ 0%Z := "src-1"; 2%Z := "src-2" ]}
              (sample_support "next" (Some [0.25; 0.125; 0.875]%float) [0; 7; 2]%Z)
              (sources_of state_ab) [0%Z] 7%Z [2%Z]
              (ok_claims _ Hok) Hknown eq_refl eq_refl)
    as (_ & srcs' & Hbody & Hclaims).
  exists srcs'. split_and!; [done | |].
  - rewrite Hclaims. vm_compute. reflexivity.
  - rewrite Hclaims. vm_compute. reflexivity.
Defined.

(** ** The escalation checker *)

Lemma checker_escalates_iff name st :
  existsb escalates (EscalationChecker_run name st) = true <-> graded_pass st.
Proof.
  unfold EscalationChecker_run, graded_pass.
  destruct (research_evaluation st) as [result|]; simpl.
  - destruct (feedback_truthy result && bool_decide (grade result = Some "pass"))
      eqn:Hcond; simpl.
    + apply andb_true_iff in Hcond as [_ Hg%bool_decide_eq_true].
      split; [eauto | done].
    + split; [done|]. intros (r & [= <-] & Hg). exfalso.
      apply andb_false_iff in Hcond as [Ht|Hb].
      * unfold feedback_truthy in Ht. rewrite Hg in Ht. done.
      * apply bool_decide_eq_false in Hb. done.
  - split; [done | by intros (r & ? & _)].
Qed.

(** C9. The checker yields one event. The event carries the escalate
    action exactly when the state holds an evaluation whose grade is
    [pass]; otherwise it is the plain event. These are its only two
    outputs, and they depend on nothing but the evaluation in the state. *)
Theorem escalation_checker_two_outputs name st :
  (EscalationChecker_run name st = [ {| author := name; escalate := Some true |} ]
   <-> graded_pass st) /\
  (EscalationChecker_run name st = [ {| author := name; escalate := None |} ]
   <-> ~ graded_pass st) /\
  (forall st',
     research_evaluation st' = research_evaluation st ->
     EscalationChecker_run name st' = EscalationChecker_run name st).
Proof.
  pose proof (checker_escalates_iff name st) as Hiff.
  unfold EscalationChecker_run in *.
  destruct (match research_evaluation st with
            | Some result =>
                feedback_truthy result && bool_decide (grade result = Some "pass")
            | None => false
            end) eqn:Hcond; simpl in Hiff.
  - split_and!.
    + split; [intros _; by apply Hiff | done].
    + split; [done | intros Hn; exfalso; by apply Hn, Hiff].
    + intros st' ->. by rewrite Hcond.
  - split_and!.
    + split; [done | intros Hp%Hiff; done].
    + split; [intros _ Hp%Hiff; done | done].
    + intros st' ->. by rewrite Hcond.
Qed.

(** ** The refinement loop *)

Section RefinementLoopFacts.
Variables evaluator refiner : State -> option State.


(** One iteration in which the evaluation does not pass. *)
Lemma iteration_continues st st1 st2 trace :
  evaluator st = Some st1 -> ~ graded_pass st1 -> refiner st1 = Some st2 ->
  run_sub_agents (refinement_sub_agents evaluator refiner) st trace = Some (st2, trace ++ full_iteration, false).
Proof.
  intros He Hn Hr. unfold refinement_sub_agents, llm_stage, checker_stage. simpl.
  rewrite He. simpl.
  destruct (existsb escalates (EscalationChecker_run "escalation_checker" st1))
    eqn:Hesc.
  { by apply checker_escalates_iff in Hesc. }
  rewrite Hr. simpl. by rewrite <- !app_assoc.
Qed.

(** One iteration in which it passes: the refiner does not run. *)
Lemma iteration_escalates st st1 trace :
  evaluator st = Some st1 -> graded_pass st1 ->
  run_sub_agents (refinement_sub_agents evaluator refiner) st trace = Some (st1, trace ++ last_iteration, true).
Proof.
  intros He Hp. unfold refinement_sub_agents, llm_stage, checker_stage. simpl.
  rewrite He. simpl.
  rewrite (proj2 (checker_escalates_iff _ _) Hp). by rewrite <- !app_assoc.
Qed.

Lemma loop_agent_step n (subs : list (string * stage)) st trace :
  loop_agent (S n) subs st trace =
  run_sub_agents subs st trace ≫= fun '(st', trace', escalated) =>
    if escalated : bool then Some (Escalated, st', trace')
    else loop_agent n subs st' trace'.
Proof. done. Qed.

Lemma iteration_start_step j st :
  iteration_start evaluator refiner (S j) st =
  (st1 ← evaluator st; refiner st1) ≫= iteration_start evaluator refiner j.
Proof.
  induction j as [|j IH].
  - simpl. destruct (evaluator st) as [st1|]; simpl; [|done].
    by destruct (refiner st1).
  - change (iteration_start evaluator refiner (S (S j)) st) with
      (st1 ← iteration_start evaluator refiner (S j) st;
       st2 ← evaluator st1; refiner st2).
    rewrite IH.
    destruct (evaluator st) as [st1|]; simpl; [|done].
    by destruct (refiner st1).
Qed.

Lemma all_fail_step n st :
  all_fail evaluator refiner (S n) st ->
  exists st1 st2,
    evaluator st = Some st1 /\ ~ graded_pass st1 /\ refiner st1 = Some st2 /\
    all_fail evaluator refiner n st2.
Proof.
  intros Hall. destruct (Hall 0 ltac:(lia)) as (st1 & He & Hn & [st2 Hr]).
  unfold evaluated in He. simpl in He.
  exists st1, st2. split_and!; try done.
  intros j Hj. destruct (Hall (S j) ltac:(lia)) as (st1' & He' & Hrest).
  exists st1'. split; [|done].
  unfold evaluated in *. rewrite iteration_start_step in He'.
  rewrite He in He'. simpl in He'. by rewrite Hr in He'.
Qed.

Lemma loop_exhausts n : forall st trace,
  all_fail evaluator refiner n st ->
  exists st',
    iteration_start evaluator refiner n st = Some st' /\
    loop_agent n (refinement_sub_agents evaluator refiner) st trace =
      Some (Exhausted, st', trace ++ mjoin (replicate n full_iteration)).
Proof.
  induction n as [|n IH]; intros st trace Hall.
  - exists st. simpl. by rewrite app_nil_r.
  - destruct (all_fail_step _ _ Hall) as (st1 & st2 & He & Hn & Hr & Hall').
    destruct (IH st2 (trace ++ full_iteration) Hall') as (st' & Hst' & Hloop).
    exists st'. split.
    + by rewrite iteration_start_step, He; simpl; rewrite Hr.
    + rewrite loop_agent_step, (iteration_continues _ _ _ _ He Hn Hr). simpl.
      rewrite Hloop. by rewrite <- app_assoc.
Qed.

Lemma loop_escalates i : forall n st st1 trace,
  i < n -> all_fail evaluator refiner i st ->
  evaluated evaluator refiner i st = Some st1 -> graded_pass st1 ->
  loop_agent n (refinement_sub_agents evaluator refiner) st trace =
    Some (Escalated, st1,
          trace ++ mjoin (replicate i full_iteration) ++ last_iteration).
Proof.
  induction i as [|i IH]; intros n st st1 trace Hlt Hall He Hp.
  - destruct n as [|n]; [lia|]. unfold evaluated in He. simpl in He.
    by rewrite loop_agent_step, (iteration_escalates _ _ _ He Hp).
  - destruct n as [|n]; [lia|].
    destruct (all_fail_step _ _ Hall) as (st1' & st2 & He' & Hn & Hr & Hall').
    rewrite loop_agent_step, (iteration_continues _ _ _ _ He' Hn Hr). simpl.
    rewrite (IH n st2 st1 _ ltac:(lia) Hall').
    + by rewrite <- !app_assoc.
    + unfold evaluated in *. rewrite iteration_start_step in He.
      rewrite He' in He. simpl in He. by rewrite Hr in He.
    + done.
Qed.

End RefinementLoopFacts.

(** C5. The refinement loop with budget [N >= 1]. If in each of the [N]
    iterations the evaluation does not pass (and no stage fails), the loop
    runs the three stages [N] times, in order, and ends by exhaustion with
    a result, not a failure. If the evaluation passes for the first time in
    iteration [i + 1 <= N], the loop ends right after the checker of that
    iteration: the trace is [i] full iterations, then the evaluator and the
    checker; the refiner of that iteration and the later iterations do not
    run, and the state is the one the evaluator left. *)
Theorem refinement_loop_terminates evaluator refiner N st :
  0 < N ->
  (all_fail evaluator refiner N st ->
   exists st',
     iteration_start evaluator refiner N st = Some st' /\
     iterative_refinement_loop evaluator refiner N st =
       Some (Exhausted, st', mjoin (replicate N full_iteration))) /\
  (forall i st1,
     i < N ->
     all_fail evaluator refiner i st ->
     evaluated evaluator refiner i st = Some st1 ->
     graded_pass st1 ->
     iterative_refinement_loop evaluator refiner N st =
       Some (Escalated, st1,
             mjoin (replicate i full_iteration) ++ last_iteration)).
Proof.
  intros _. split.
  - intros Hall. apply (loop_exhausts evaluator refiner N st [] Hall).
  - intros i st1 Hlt Hall He Hp.
    apply (loop_escalates evaluator refiner i N st st1 [] Hlt Hall He Hp).
Qed.

Lemma strict_all_fail : all_fail strict_evaluator sample_refiner 3 empty_state.
Proof.
  intros j Hj.
  destruct j as [|[|[|j]]]; [| | | lia];
    (eexists; split_and!;
     [ reflexivity
     | intros (result & [= <-] & Hg); discriminate Hg
     | by eexists ]).
Defined.

Lemma lenient_all_fail : all_fail lenient_evaluator sample_refiner 1 empty_state.
Proof.
  intros j Hj.
  destruct j as [|j]; [| lia].
  eexists. split_and!.
  - reflexivity.
  - intros (result & [= <-] & Hg). discriminate Hg.
  - by eexists.
Defined.

Lemma refinement_loop_terminates_witness :
  (exists st',
     iterative_refinement_loop strict_evaluator sample_refiner 3 empty_state =
       Some (Exhausted, st',
             full_iteration ++ full_iteration ++ full_iteration)) /\
  (exists st1,
     iterative_refinement_loop lenient_evaluator sample_refiner 3 empty_state =
       Some (Escalated, st1, full_iteration ++ last_iteration)).
Proof.
  split.
  - destruct (refinement_loop_terminates strict_evaluator sample_refiner 3
                empty_state ltac:(lia)) as [Hexhaust _].
    destruct (Hexhaust strict_all_fail) as (st' & _ & Hloop).
    exists st'. exact Hloop.
  - destruct (refinement_loop_terminates lenient_evaluator sample_refiner 3
                empty_state ltac:(lia)) as [_ Hescalate].
    eexists. apply (Hescalate 1).
    + lia.
    + exact lenient_all_fail.
    + reflexivity.
    + eexists. split; reflexivity.
Defined.

(** ** Strings *)

Lemma app_cons c s t : String c s +:+ t = String c (s +:+ t).
Proof. done. Qed.

Lemma app_empty_l s : "" +:+ s = s.
Proof. done. Qed.

Lemma app_empty_r s : s +:+ "" = s.
Proof. induction s as [|c s IH]; [done|]. by rewrite app_cons, IH. Qed.

Lemma str_app_assoc s t u : (s +:+ t) +:+ u = s +:+ (t +:+ u).
Proof. induction s as [|c s IH]; [done|]. by rewrite !app_cons, IH. Qed.

Lemma str_length_app s t :
  String.length (s +:+ t) = String.length s + String.length t.
Proof. induction s as [|c s IH]; [done|]. rewrite app_cons. simpl. by rewrite IH. Qed.

Lemma substring_prefix s t : substring 0 (String.length s) (s +:+ t) = s.
Proof.
  induction s as [|c s IH].
  - rewrite app_empty_l. by destruct t.
  - rewrite app_cons. simpl. by rewrite IH.
Qed.

Lemma substring_app_l n s t :
  n <= String.length s -> substring 0 n (s +:+ t) = substring 0 n s.
Proof.
  revert n. induction s as [|c s IH]; intros n Hn; simpl in Hn.
  - assert (n = 0) as -> by lia. rewrite app_empty_l. by destruct t.
  - destruct n as [|n]; [done|]. rewrite app_cons. simpl.
    by rewrite IH by lia.
Qed.

(** The text between a position and a later one is what was read. *)
Lemma consumed_app p s : consumed (p +:+ s) s = p.
Proof.
  unfold consumed. rewrite str_length_app.
  replace (String.length p + String.length s - String.length s)
    with (String.length p) by lia.
  apply substring_prefix.
Qed.

Lemma consumed_ext s t x : consumed (s +:+ x) (t +:+ x) = consumed s t.
Proof.
  unfold consumed. rewrite !str_length_app.
  replace (String.length s + String.length x -
           (String.length t + String.length x))
    with (String.length s - String.length t) by lia.
  apply substring_app_l. lia.
Qed.

Lemma all_in_app p s t : all_in p (s +:+ t) = all_in p s && all_in p t.
Proof.
  induction s as [|c s IH]; [done|]. rewrite app_cons. simpl.
  by rewrite IH, andb_assoc.
Qed.

(** ** The matcher *)

Lemma bt_cat {R} r1 r2 s g (k : string -> option string -> option R) :
  bt (Cat r1 r2) s g k = bt r1 s g (fun s1 g1 => bt r2 s1 g1 k).
Proof. done. Qed.

Lemma bt_group {R} r s g (k : string -> option string -> option R) :
  bt (Group r) s g k = bt r s g (fun s' _ => k s' (Some (consumed s s'))).
Proof. done. Qed.

(** What a successful match of each construct has read. *)
Lemma bt_lit_inv {R} c s g (k : string -> option string -> option R) x :
  bt (Lit c) s g k = Some x -> exists s', s = String c s' /\ k s' g = Some x.
Proof.
  simpl. destruct s as [|c' s']; [done|].
  destruct (Ascii.eqb c c') eqn:Heq; [|done].
  apply Ascii.eqb_eq in Heq as ->. eauto.
Qed.

Lemma bt_lits_inv {R} lit : forall s g (k : string -> option string -> option R) x,
  bt (lits lit) s g k = Some x -> exists s', s = lit +:+ s' /\ k s' g = Some x.
Proof.
  induction lit as [|c lit IH]; intros s g k x; simpl.
  - eauto.
  - destruct s as [|c' s']; [done|].
    destruct (Ascii.eqb c c') eqn:Heq; [|done].
    apply Ascii.eqb_eq in Heq as <-.
    intros (s'' & -> & Hk)%IH. eauto.
Qed.

Lemma bt_class_inv {R} p s g (k : string -> option string -> option R) x :
  bt (Class p) s g k = Some x ->
  exists c s', s = String c s' /\ p c = true /\ k s' g = Some x.
Proof.
  simpl. destruct s as [|c s']; [done|].
  destruct (p c) eqn:Hp; [|done]. eauto.
Qed.

Lemma star_bt_inv {R} p s (k : string -> option R) x :
  star_bt p s k = Some x ->
  exists w s', s = w +:+ s' /\ all_in p w = true /\ k s' = Some x.
Proof.
  induction s as [|c s IH]; simpl.
  - intros Hk. by exists "", "".
  - destruct (p c) eqn:Hp.
    + destruct (star_bt p s k) as [r|] eqn:Hstar.
      * intros [= <-]. destruct (IH eq_refl) as (w & s' & -> & Hw & Hk).
        exists (String c w), s'. simpl. by rewrite Hp, Hw.
      * intros Hk. by exists "", (String c s).
    + intros Hk. by exists "", (String c s).
Qed.

Lemma bt_star_inv {R} p s g (k : string -> option string -> option R) x :
  bt (Star p) s g k = Some x ->
  exists w s', s = w +:+ s' /\ all_in p w = true /\ k s' g = Some x.
Proof. simpl. apply star_bt_inv. Qed.

Lemma bt_plus_inv {R} p s g (k : string -> option string -> option R) x :
  bt (plus p) s g k = Some x ->
  exists w s', s = w +:+ s' /\ all_in p w = true /\ w <> "" /\ k s' g = Some x.
Proof.
  unfold plus. rewrite bt_cat.
  intros (c & s1 & -> & Hc & (w & s' & -> & Hw & Hk)%bt_star_inv)%bt_class_inv.
  exists (String c w), s'. simpl. by rewrite Hc, Hw.
Qed.

Lemma bt_opt_quote_inv {R} s g (k : string -> option string -> option R) x :
  bt (Opt (Class is_quote)) s g k = Some x ->
  exists q s', s = q +:+ s' /\ opt_quote q /\ k s' g = Some x.
Proof.
  simpl. destruct s as [|c s'].
  - intros Hk. exists "", "". by repeat split; [left|].
  - destruct (is_quote c) eqn:Hq.
    + destruct (k s' g) as [r|] eqn:Hk.
      * intros [= <-]. exists (String c ""), s'. split_and!; [done | | done].
        unfold is_quote in Hq. apply orb_true_iff in Hq as [Hq|Hq];
          apply Ascii.eqb_eq in Hq as ->.
        -- right. by left.
        -- right. by right.
      * intros Hk'. exists "", (String c s'). by repeat split; [left|].
    + intros Hk'. exists "", (String c s'). by repeat split; [left|].
Qed.

(** ** The pattern of a citation tag *)

(** The pattern only matches citation tags: a match has read a tag, and
    group 1 is its id. *)
Lemma cite_match_marker s m :
  match_at cite_pattern s = Some m ->
  exists short_id,
    group1 m = Some short_id /\ marker (group0 m) short_id /\
    s = group0 m +:+ after m.
Proof.
  unfold match_at, cite_pattern. cbn [cat_all foldr].
  set (k := fun s' g => Some {| group0 := consumed s s'; group1 := g; after := s' |}).
  intros H. rewrite bt_cat in H.
  apply bt_lits_inv in H as (s1 & Hs & H). rewrite bt_cat in H.
  apply bt_plus_inv in H as (ws1 & s2 & -> & Hws1 & Hne1 & H). rewrite bt_cat in H.
  apply bt_lits_inv in H as (s3 & -> & H). rewrite bt_cat in H.
  apply bt_star_inv in H as (ws2 & s4 & -> & Hws2 & H). rewrite bt_cat in H.
  apply bt_lit_inv in H as (s5 & -> & H). rewrite bt_cat in H.
  apply bt_star_inv in H as (ws3 & s6 & -> & Hws3 & H). rewrite bt_cat in H.
  apply bt_opt_quote_inv in H as (q1 & s7 & -> & Hq1 & H). rewrite bt_cat in H.
  apply bt_star_inv in H as (ws4 & s8 & -> & Hws4 & H).
  rewrite bt_cat, bt_group, bt_cat in H.
  apply bt_lits_inv in H as (s9 & -> & H).
  apply bt_plus_inv in H as (ds & s10 & -> & Hds & Hne & H). rewrite bt_cat in H.
  apply bt_star_inv in H as (ws5 & s11 & -> & Hws5 & H). rewrite bt_cat in H.
  apply bt_opt_quote_inv in H as (q2 & s12 & -> & Hq2 & H). rewrite bt_cat in H.
  apply bt_star_inv in H as (ws6 & s13 & -> & Hws6 & H). rewrite bt_cat in H.
  apply bt_lits_inv in H as (s14 & -> & H).
  simpl in H. unfold k in H. injection H as <-. simpl.
  assert (Hg1 : consumed ("src-" +:+ ds +:+ ws5 +:+ q2 +:+ ws6 +:+ "/>" +:+ s14)
                  (ws5 +:+ q2 +:+ ws6 +:+ "/>" +:+ s14) = "src-" +:+ ds).
  { rewrite <- (str_app_assoc "src-" ds). apply consumed_app. }
  assert (Hs' : s =
            ("<cite" +:+ ws1 +:+ "source" +:+ ws2 +:+ "=" +:+ ws3 +:+ q1 +:+ ws4
               +:+ "src-" +:+ ds +:+ ws5 +:+ q2 +:+ ws6 +:+ "/>") +:+ s14).
  { rewrite Hs, !str_app_assoc. reflexivity. }
  assert (Hg0 : consumed s s14 =
            "<cite" +:+ ws1 +:+ "source" +:+ ws2 +:+ "=" +:+ ws3 +:+ q1 +:+ ws4
              +:+ "src-" +:+ ds +:+ ws5 +:+ q2 +:+ ws6 +:+ "/>").
  { rewrite Hs'. apply consumed_app. }
  exists ("src-" +:+ ds). rewrite Hg1, Hg0.
  split_and!; [done | by constructor | done].
Qed.

(** When a construct is sure to match. *)
Lemma bt_lits_app {R} lit : forall s g (k : string -> option string -> option R),
  bt (lits lit) (lit +:+ s) g k = k s g.
Proof.
  induction lit as [|c lit IH]; intros s g k; [done|].
  rewrite app_cons. simpl. by rewrite Ascii.eqb_refl, IH.
Qed.

Lemma bt_lit_hit {R} c s g (k : string -> option string -> option R) :
  bt (Lit c) (String c s) g k = k s g.
Proof. simpl. by rewrite Ascii.eqb_refl. Qed.

Lemma star_bt_greedy {R} p w s (k : string -> option R) x :
  all_in p w = true -> starts_outside p s = true -> k s = Some x ->
  star_bt p (w +:+ s) k = Some x.
Proof.
  intros Hw Hs Hk. induction w as [|c w IH].
  - rewrite app_empty_l. destruct s as [|c s]; [done|].
    simpl in *. by destruct (p c).
  - rewrite app_cons. simpl in *. apply andb_true_iff in Hw as [-> Hw].
    by rewrite IH.
Qed.

Lemma bt_star_greedy {R} p w s g (k : string -> option string -> option R) x :
  all_in p w = true -> starts_outside p s = true -> k s g = Some x ->
  bt (Star p) (w +:+ s) g k = Some x.
Proof. intros. simpl. by apply star_bt_greedy. Qed.

Lemma bt_plus_greedy {R} p w s g (k : string -> option string -> option R) x :
  all_in p w = true -> w <> "" -> starts_outside p s = true ->
  k s g = Some x ->
  bt (plus p) (w +:+ s) g k = Some x.
Proof.
  intros Hw Hne Hs Hk. destruct w as [|c w]; [done|].
  simpl in Hw. apply andb_true_iff in Hw as [Hc Hw].
  unfold plus. rewrite bt_cat, app_cons. simpl bt at 1. rewrite Hc.
  by apply bt_star_greedy.
Qed.

Lemma bt_opt_quote {R} q s g (k : string -> option string -> option R) x :
  opt_quote q -> (q = "" -> starts_outside is_quote s = true) ->
  k s g = Some x ->
  bt (Opt (Class is_quote)) (q +:+ s) g k = Some x.
Proof.
  intros [->|[->| ->]] Hs Hk.
  - rewrite app_empty_l. specialize (Hs eq_refl).
    destruct s as [|c s]; simpl in *; [done|].
    by destruct (is_quote c).
  - rewrite app_cons, app_empty_l. simpl. by rewrite Hk.
  - rewrite app_cons, app_empty_l. simpl. by rewrite Hk.
Qed.

Lemma starts_outside_app (p q : ascii -> bool) w t :
  (forall c, q c = true -> p c = false) ->
  all_in q w = true -> starts_outside p t = true ->
  starts_outside p (w +:+ t) = true.
Proof.
  intros Hpq Hw Ht. destruct w as [|c w]; [done|].
  rewrite app_cons. simpl in *. apply andb_true_iff in Hw as [Hc _].
  by rewrite (Hpq c Hc).
Qed.

Lemma space_not_digit c : is_space c = true -> is_digit c = false.
Proof. destruct c as [[] [] [] [] [] [] [] []]; by vm_compute. Qed.

Lemma starts_outside_quote p q t :
  opt_quote q ->
  p "034"%char = false -> p "'"%char = false ->
  (q = "" -> starts_outside p t = true) ->
  starts_outside p (q +:+ t) = true.
Proof.
  intros [->|[->| ->]] H1 H2 Ht; [by apply Ht | |];
    rewrite app_cons; simpl; by rewrite ?H1, ?H2.
Qed.

(** A tag in which no whitespace follows a quote that is not there. *)
Lemma normal_tag_match ws1 ws2 ws3 q1 ws4 ds ws5 q2 ws6 rest :
  all_in is_space ws1 = true -> ws1 <> "" ->
  all_in is_space ws2 = true ->
  all_in is_space ws3 = true ->
  opt_quote q1 -> (q1 = "" -> ws4 = "") ->
  all_in is_space ws4 = true ->
  all_in is_digit ds = true -> ds <> "" ->
  all_in is_space ws5 = true ->
  opt_quote q2 -> (q2 = "" -> ws6 = "") ->
  all_in is_space ws6 = true ->
  match_at cite_pattern
    (("<cite" +:+ ws1 +:+ "source" +:+ ws2 +:+ "=" +:+ ws3 +:+ q1 +:+ ws4
        +:+ "src-" +:+ ds +:+ ws5 +:+ q2 +:+ ws6 +:+ "/>") +:+ rest) =
  Some (tag_match
          ("<cite" +:+ ws1 +:+ "source" +:+ ws2 +:+ "=" +:+ ws3 +:+ q1 +:+ ws4
             +:+ "src-" +:+ ds +:+ ws5 +:+ q2 +:+ ws6 +:+ "/>")
          ("src-" +:+ ds) rest).
Proof.
  intros Hws1 Hne1 Hws2 Hws3 Hq1 Hn1 Hws4 Hds Hne Hws5 Hq2 Hn2 Hws6.
  unfold match_at.
  match goal with |- bt _ _ _ ?f = _ => set (k := f) end.
  assert (Hk : k rest (Some ("src-" +:+ ds)) =
               Some (tag_match
                 ("<cite" +:+ ws1 +:+ "source" +:+ ws2 +:+ "=" +:+ ws3 +:+ q1
                    +:+ ws4 +:+ "src-" +:+ ds +:+ ws5 +:+ q2 +:+ ws6 +:+ "/>")
                 ("src-" +:+ ds) rest)).
  { unfold k, tag_match. by rewrite consumed_app. }
  clearbody k. unfold cite_pattern. cbn [cat_all foldr].
  rewrite !str_app_assoc.
  rewrite bt_cat, bt_lits_app.
  rewrite bt_cat. apply bt_plus_greedy; [done | done | done |].
  rewrite bt_cat, bt_lits_app.
  rewrite bt_cat. apply bt_star_greedy; [done | done |].
  rewrite bt_cat. change ("=" +:+ ?x) with (String "=" x). rewrite bt_lit_hit.
  rewrite bt_cat. apply bt_star_greedy; [done | |].
  { apply starts_outside_quote; [done | done | done |].
    intros Heq. by rewrite (Hn1 Heq). }
  rewrite bt_cat. apply bt_opt_quote; [done | |].
  { intros Heq. by rewrite (Hn1 Heq). }
  rewrite bt_cat. apply bt_star_greedy; [done | done |].
  rewrite bt_cat, bt_group, bt_cat, bt_lits_app.
  assert (Hdigits : starts_outside is_digit
                      (ws5 +:+ q2 +:+ ws6 +:+ "/>" +:+ rest) = true).
  { apply (starts_outside_app _ is_space); [apply space_not_digit | done |].
    apply starts_outside_quote; [done | done | done |].
    intros Heq. by rewrite (Hn2 Heq). }
  apply bt_plus_greedy; [done | done | done |].
  rewrite <- (str_app_assoc "src-" ds), consumed_app.
  rewrite bt_cat. apply bt_star_greedy; [done | |].
  { apply starts_outside_quote; [done | done | done |].
    intros Heq. by rewrite (Hn2 Heq). }
  rewrite bt_cat. apply bt_opt_quote; [done | |].
  { intros Heq. by rewrite (Hn2 Heq). }
  rewrite bt_cat. apply bt_star_greedy; [done | done |].
  rewrite bt_cat, bt_lits_app. exact Hk.
Qed.


Lemma quote_normal ws q ws' :
  all_in is_space ws = true -> all_in is_space ws' = true ->
  exists a b,
    (forall t, ws +:+ q +:+ ws' +:+ t = a +:+ q +:+ b +:+ t) /\
    all_in is_space a = true /\ all_in is_space b = true /\
    (q = "" -> b = "").
Proof.
  intros Hws Hws'. destruct (decide (q = "")) as [->|Hq].
  - exists (ws +:+ ws'), "". split_and!; try done.
    + intros t. by rewrite !app_empty_l, str_app_assoc.
    + by rewrite all_in_app, Hws, Hws'.
  - exists ws, ws'. by split_and!.
Qed.

(** The pattern matches every citation tag, wherever it stands: the match
    is the tag, group 1 its id. *)
Lemma marker_match tag short_id rest :
  marker tag short_id ->
  match_at cite_pattern (tag +:+ rest) = Some (tag_match tag short_id rest).
Proof.
  intros [ws1 ws2 ws3 q1 ws4 ds ws5 q2 ws6
            Hws1 Hne1 Hws2 Hws3 Hq1 Hws4 Hds Hne Hws5 Hq2 Hws6].
  destruct (quote_normal ws3 q1 ws4 Hws3 Hws4) as (a3 & b4 & He1 & Ha3 & Hb4 & Hn1).
  destruct (quote_normal ws5 q2 ws6 Hws5 Hws6) as (a5 & b6 & He2 & Ha5 & Hb6 & Hn2).
  rewrite He2, He1.
  by apply normal_tag_match.
Qed.

Lemma marker_starts tag short_id :
  marker tag short_id -> exists tail, tag = String "<" tail.
Proof. intros []. eexists. reflexivity. Qed.

(** ** Matching in a longer text *)

Lemma star_bt_ext {R R'} p c0 y (f : R -> R') s
    (k : string -> option R) (k' : string -> option R') :
  p c0 = false ->
  (forall t, k' (t +:+ String c0 y) = f <$> k t) ->
  star_bt p (s +:+ String c0 y) k' = f <$> star_bt p s k.
Proof.
  intros Hc0 Hk. induction s as [|c s IH].
  - rewrite app_empty_l. simpl. rewrite Hc0. apply (Hk "").
  - rewrite app_cons. simpl. destruct (p c).
    + rewrite IH. destruct (star_bt p s k); simpl; [done|].
      apply (Hk (String c s)).
    + apply (Hk (String c s)).
Qed.

(** A regular expression that cannot read [c0] matches before a text that
    starts with [c0] as it does at the end of the text. *)
Lemma bt_ext {R R'} c0 y (f : R -> R') r :
  rejects r c0 = true ->
  forall s g (k : string -> option string -> option R)
         (k' : string -> option string -> option R'),
    (forall t g', k' (t +:+ String c0 y) g' = f <$> k t g') ->
    bt r (s +:+ String c0 y) g k' = f <$> bt r s g k.
Proof.
  induction r as [|c|p|r1 IH1 r2 IH2|r1 IH1|p|r1 IH1];
    simpl rejects; intros Hrej s g k k' Hk.
  - apply Hk.
  - apply negb_true_iff in Hrej. destruct s as [|c' s].
    + rewrite app_empty_l. simpl. by rewrite Hrej.
    + rewrite app_cons. simpl. destruct (Ascii.eqb c c'); [apply Hk | done].
  - apply negb_true_iff in Hrej. destruct s as [|c' s].
    + rewrite app_empty_l. simpl. by rewrite Hrej.
    + rewrite app_cons. simpl. destruct (p c'); [apply Hk | done].
  - apply andb_true_iff in Hrej as [Hrej1 Hrej2]. rewrite !bt_cat.
    apply IH1; [done|]. intros t g'. by apply IH2.
  - simpl. rewrite (IH1 Hrej s g k k' Hk).
    destruct (bt r1 s g k); simpl; [done | apply Hk].
  - apply negb_true_iff in Hrej. simpl.
    apply star_bt_ext; [done|]. intros t. apply Hk.
  - rewrite !bt_group. apply IH1; [done|].
    intros t g'. rewrite consumed_ext. apply Hk.
Qed.

Lemma bt_lit_cons {R} c c' s g (k : string -> option string -> option R) :
  bt (Lit c) (String c' s) g k = if Ascii.eqb c c' then k s g else None.
Proof. done. Qed.

(** Where a tag could start, the pattern matches before a text that starts
    with [<] as it does at the end of the text. *)
Lemma cite_match_ext c s y :
  match_at cite_pattern (String c s +:+ String "<" y) =
  extend (String "<" y) <$> match_at cite_pattern (String c s).
Proof.
  unfold match_at, cite_pattern.
  cbn [cat_all foldr lits]. rewrite !bt_cat, app_cons, !bt_lit_cons.
  destruct (Ascii.eqb "<" c); [|done].
  apply bt_ext; [by vm_compute|]. intros t g'.
  apply bt_ext; [by vm_compute|]. intros t' g''.
  simpl. unfold extend. simpl. f_equal. f_equal.
  rewrite <- app_cons. apply consumed_ext.
Qed.

(** ** Substitution *)

Lemma sub_from_enough r repl :
  progresses r ->
  forall n s fuel1 fuel2,
    String.length s <= n -> n <= fuel1 -> n <= fuel2 ->
    sub_from fuel1 r repl s = sub_from fuel2 r repl s.
Proof.
  intros Hprog. induction n as [|n IH]; intros s fuel1 fuel2 Hs H1 H2.
  - destruct s; [|simpl in Hs; lia]. by destruct fuel1, fuel2.
  - destruct s as [|c s]; [by destruct fuel1, fuel2|].
    destruct fuel1 as [|fuel1]; [lia|]. destruct fuel2 as [|fuel2]; [lia|].
    simpl in Hs. simpl.
    destruct (match_at r (String c s)) as [m|] eqn:Hm.
    + apply Hprog in Hm. simpl in Hm.
      destruct (repl m) as [[text warnings]|]; simpl; [|done].
      by rewrite (IH (after m) fuel1 fuel2) by lia.
    + by rewrite (IH s fuel1 fuel2) by lia.
Qed.

Lemma re_sub_nil r repl : re_sub r repl "" = Some ("", []).
Proof. done. Qed.

Lemma re_sub_match r repl c s m :
  progresses r ->
  match_at r (String c s) = Some m ->
  re_sub r repl (String c s) =
  repl m ≫= fun '(text, warnings) =>
    re_sub r repl (after m) ≫= fun '(out, warnings') =>
      Some (text +:+ out, warnings ++ warnings').
Proof.
  intros Hprog Hm. unfold re_sub. simpl. rewrite Hm.
  destruct (repl m) as [[text warnings]|]; simpl; [|done].
  apply Hprog in Hm. simpl in Hm.
  by rewrite (sub_from_enough r repl Hprog (String.length (after m)) (after m)
                (String.length s) (String.length (after m))) by lia.
Qed.

Lemma re_sub_copy r repl c s :
  match_at r (String c s) = None ->
  re_sub r repl (String c s) =
  re_sub r repl s ≫= fun '(out, warnings') => Some (String c out, warnings').
Proof. intros Hm. unfold re_sub. simpl. by rewrite Hm. Qed.

Lemma cite_progresses : progresses cite_pattern.
Proof.
  intros s m (id & _ & Htag & Hs)%cite_match_marker.
  destruct (marker_starts _ _ Htag) as [tail Htail].
  rewrite Hs, Htail, str_length_app. simpl. lia.
Qed.

Lemma cleanup_progresses : progresses cleanup_pattern.
Proof.
  intros s m. unfold match_at, cleanup_pattern. rewrite bt_cat.
  intros (w & s1 & -> & _ & Hne & H)%bt_plus_inv.
  rewrite bt_group in H.
  apply bt_class_inv in H as (c & s2 & -> & _ & [= <-]). simpl.
  rewrite str_length_app. simpl. lia.
Qed.

Lemma bind_pair_id {A B} (m : option (A * B)) :
  m ≫= (fun '(a, b) => Some (a, b)) = m.
Proof. by destruct m as [[a b]|]. Qed.

Lemma tag_replacer_extend srcs x m :
  tag_replacer srcs (extend x m) = tag_replacer srcs m.
Proof. done. Qed.

(** The first pass treats the text before a [<] on its own. *)
Lemma replace_tags_app srcs x :
  x = "" \/ (exists y, x = String "<" y) ->
  forall n pre,
    String.length pre <= n ->
    replace_tags srcs (pre +:+ x) =
    replace_tags srcs pre ≫= fun '(out1, w1) =>
      replace_tags srcs x ≫= fun '(out2, w2) =>
        Some (out1 +:+ out2, w1 ++ w2).
Proof.
  intros [->|[y ->]].
  { intros n pre _. rewrite app_empty_r. unfold replace_tags.
    rewrite re_sub_nil.
    destruct (re_sub cite_pattern (tag_replacer srcs) pre)
      as [[out1 w1]|]; simpl; [|done].
    by rewrite app_empty_r, app_nil_r. }
  unfold replace_tags.
  induction n as [|n IH]; intros pre Hlen.
  - destruct pre; [|simpl in Hlen; lia]. rewrite app_empty_l, re_sub_nil. simpl.
    by rewrite bind_pair_id.
  - destruct pre as [|c pre].
    { rewrite app_empty_l, re_sub_nil. simpl. by rewrite bind_pair_id. }
    simpl in Hlen.
    pose proof (cite_match_ext c pre y) as Hext.
    destruct (match_at cite_pattern (String c pre)) as [m|] eqn:Hm;
      simpl in Hext; rewrite app_cons in *.
    + rewrite (re_sub_match _ _ _ _ _ cite_progresses Hext).
      rewrite (re_sub_match _ _ _ _ _ cite_progresses Hm).
      rewrite tag_replacer_extend. simpl.
      apply cite_progresses in Hm. simpl in Hm.
      rewrite (IH (after m)) by lia.
      destruct (tag_replacer srcs m) as [[text w]|]; simpl; [|done].
      destruct (re_sub cite_pattern (tag_replacer srcs) (after m))
        as [[out w']|]; simpl; [|done].
      destruct (re_sub cite_pattern (tag_replacer srcs) (String "<" y))
        as [[out2 w2]|]; simpl; [|done].
      by rewrite str_app_assoc, app_assoc.
    + rewrite (re_sub_copy _ _ _ _ Hext), (re_sub_copy _ _ _ _ Hm).
      rewrite (IH pre) by lia.
      destruct (re_sub cite_pattern (tag_replacer srcs) pre)
        as [[out w']|]; simpl; [|done].
      by destruct (re_sub cite_pattern (tag_replacer srcs) (String "<" y))
        as [[out2 w2]|].
Qed.

(** The first pass at a tag: the replacement, then the text after it. *)
Lemma replace_tags_tag srcs tag short_id rest :
  marker tag short_id ->
  replace_tags srcs (tag +:+ rest) =
  tag_replacer srcs (tag_match tag short_id rest) ≫= fun '(text, w) =>
    replace_tags srcs rest ≫= fun '(out, w') =>
      Some (text +:+ out, w ++ w').
Proof.
  intros Htag. pose proof (marker_match tag short_id rest Htag) as Hm.
  destruct (marker_starts _ _ Htag) as [tail ->]. rewrite app_cons in *.
  unfold replace_tags. by rewrite (re_sub_match _ _ _ _ _ cite_progresses Hm).
Qed.

(** The first pass around a tag: the text before it, the replacement of the
    tag, the text after it. *)
Lemma replace_tags_around srcs pre tag short_id rest :
  marker tag short_id ->
  replace_tags srcs (pre +:+ tag +:+ rest) =
  replace_tags srcs pre ≫= fun '(out1, w1) =>
    tag_replacer srcs (tag_match tag short_id rest) ≫= fun '(text, w) =>
      replace_tags srcs rest ≫= fun '(out2, w2) =>
        Some (out1 +:+ text +:+ out2, w1 ++ w ++ w2).
Proof.
  intros Htag.
  rewrite (replace_tags_app srcs (tag +:+ rest)) with (n := String.length pre);
    [|right|done].
  2:{ destruct (marker_starts _ _ Htag) as [tail ->]. rewrite app_cons. eauto. }
  rewrite (replace_tags_tag _ _ _ _ Htag).
  destruct (replace_tags srcs pre) as [[out1 w1]|]; simpl; [|done].
  destruct (tag_replacer srcs _) as [[text w]|]; simpl; [|done].
  by destruct (replace_tags srcs rest) as [[out2 w2]|].
Qed.

Lemma contains_marker_tail c s : contains_marker s -> contains_marker (String c s).
Proof.
  intros (before & tag & id & rest & -> & Htag).
  exists (String c before), tag, id, rest. by rewrite app_cons.
Qed.

Lemma match_contains_marker s m :
  match_at cite_pattern s = Some m -> contains_marker s.
Proof.
  intros (id & _ & Htag & Hs)%cite_match_marker.
  exists "", (group0 m), id, (after m). by rewrite app_empty_l.
Qed.

Lemma has_match_here s m : match_at cite_pattern s = Some m -> has_match s = true.
Proof. intros Hm. destruct s; cbn [has_match]; by rewrite Hm. Qed.

(** A text holds a tag exactly when the pattern matches somewhere in it. *)
Lemma contains_marker_has_match s : contains_marker s <-> has_match s = true.
Proof.
  split.
  - intros (before & tag & id & rest & -> & Htag).
    induction before as [|c before IH].
    + rewrite app_empty_l.
      by eapply has_match_here, marker_match.
    + rewrite app_cons. cbn [has_match]. rewrite IH. by destruct (match_at _ _).
  - induction s as [|c s IH]; cbn [has_match].
    + destruct (match_at cite_pattern "") eqn:Hm; [|done].
      intros _. by eapply match_contains_marker.
    + destruct (match_at cite_pattern (String c s)) eqn:Hm.
      * intros _. by eapply match_contains_marker.
      * intros Hs. by apply contains_marker_tail, IH.
Qed.

(** The second pass always returns. *)
Lemma cleanup_returns text :
  exists out, re_sub cleanup_pattern keep_group1 text = Some (out, []).
Proof.
  assert (H : forall n s, String.length s <= n ->
            exists out, re_sub cleanup_pattern keep_group1 s = Some (out, [])).
  { induction n as [|n IH]; intros s Hs.
    - destruct s; [|simpl in Hs; lia]. by exists "".
    - destruct s as [|c s]; [by exists ""|]. simpl in Hs.
      destruct (match_at cleanup_pattern (String c s)) as [m|] eqn:Hm.
      + rewrite (re_sub_match _ _ _ _ _ cleanup_progresses Hm).
        apply cleanup_progresses in Hm. simpl in Hm.
        destruct (IH (after m) ltac:(lia)) as [out ->]. simpl. eauto.
      + rewrite (re_sub_copy _ _ _ _ Hm).
        destruct (IH s ltac:(lia)) as [out ->]. simpl. eauto. }
  eauto.
Qed.

(** ** The citation renderer *)

(** The replacement function on an entry that is an empty dict: the tag is
    elided, as for a missing id. *)
Lemma tag_replacer_empty_entry srcs tag short_id rest si :
  srcs !! short_id = Some si -> source_truthy si = false ->
  tag_replacer srcs (tag_match tag short_id rest) =
  Some ("", [invalid_tag_warning tag]).
Proof. intros Hsi Hfalsy. unfold tag_replacer. simpl. by rewrite Hsi, Hfalsy. Qed.

(** The replacement function on an entry without the key [url]: the lookup
    raises. *)
Lemma tag_replacer_no_url srcs tag short_id rest si :
  srcs !! short_id = Some si -> source_truthy si = true ->
  src_url si = None ->
  tag_replacer srcs (tag_match tag short_id rest) = None.
Proof.
  intros Hsi Htruthy Hurl. unfold tag_replacer. simpl.
  by rewrite Hsi, Htruthy, Hurl.
Qed.

(** The replacement function returns when the entries have their URL. *)
Lemma tag_replacer_returns srcs m :
  sources_with_url srcs -> is_Some (tag_replacer srcs m).
Proof.
  intros Hurl. unfold tag_replacer.
  destruct (group1 m ≫= fun short_id => srcs !! short_id) as [si|] eqn:Hsi;
    [|by eexists].
  destruct (source_truthy si) eqn:Htruthy; [|by eexists].
  destruct (group1 m) as [short_id|]; simpl in Hsi; [|done].
  destruct (Hurl short_id si Hsi Htruthy) as [url ->]. by eexists.
Qed.

(** So does the first pass, on every text. *)
Lemma replace_tags_returns srcs text :
  sources_with_url srcs -> is_Some (replace_tags srcs text).
Proof.
  intros Hurl. unfold replace_tags.
  assert (H : forall n s, String.length s <= n ->
            is_Some (re_sub cite_pattern (tag_replacer srcs) s)).
  { induction n as [|n IH]; intros s Hs.
    - destruct s; [|simpl in Hs; lia]. by eexists.
    - destruct s as [|c s]; [by eexists|]. simpl in Hs.
      destruct (match_at cite_pattern (String c s)) as [m|] eqn:Hm.
      + rewrite (re_sub_match _ _ _ _ _ cite_progresses Hm).
        apply cite_progresses in Hm. simpl in Hm.
        destruct (tag_replacer_returns srcs m Hurl) as [[text' w] ->].
        destruct (IH (after m) ltac:(lia)) as [[out w'] ->]. by eexists.
      + rewrite (re_sub_copy _ _ _ _ Hm).
        destruct (IH s ltac:(lia)) as [[out w'] ->]. by eexists. }
  eauto.
Qed.

(** The tag in the form the report composer is told to use is a tag. *)
Lemma cite_tag_marker ds :
  all_in is_digit ds = true -> ds <> "" ->
  marker (cite_tag ("src-" +:+ ds)) ("src-" +:+ ds).
Proof.
  intros Hds Hne.
  replace (cite_tag ("src-" +:+ ds)) with
    ("<cite" +:+ " " +:+ "source" +:+ "" +:+ "=" +:+ "" +:+ dq +:+ ""
       +:+ "src-" +:+ ds +:+ "" +:+ dq +:+ " " +:+ "/>").
  - constructor; try done; right; by left.
  - reflexivity.
Qed.

Lemma render_of_replace_tags text srcs out w :
  replace_tags srcs text = Some (out, w) ->
  render text srcs = Some (cleanup out, w).
Proof. intros H. unfold render. by rewrite H. Qed.

(** C2, as the code has it. A tag whose id has an entry with a URL is
    replaced by a space and the link [[display](url)], the URL as it is; the
    display text is the value under [title] whenever the entry has that key,
    even when the title is empty, else the value under [domain] when the
    entry has that key, else the short id. The text before and after the
    tag is processed on its own, and the cleanup pass then runs over the
    whole result. *)
Theorem tag_replaced_by_link srcs pre tag short_id rest si url out1 w1 out2 w2 :
  marker tag short_id ->
  srcs !! short_id = Some si ->
  src_url si = Some url ->
  replace_tags srcs pre = Some (out1, w1) ->
  replace_tags srcs rest = Some (out2, w2) ->
  tag_replacer srcs (tag_match tag short_id rest) =
    Some (link (py_format (display_of si short_id)) (py_format url), []) /\
  render (pre +:+ tag +:+ rest) srcs =
    Some (cleanup (out1 +:+ link (py_format (display_of si short_id))
                                 (py_format url) +:+ out2),
          w1 ++ w2) /\
  (forall title, src_title si = Some title -> display_of si short_id = title) /\
  (forall domain,
     src_title si = None -> src_domain si = Some domain ->
     display_of si short_id = domain) /\
  (src_title si = None -> src_domain si = None ->
   display_of si short_id = PyStr short_id).
Proof.
  intros Htag Hsi Hurl Hpre Hrest.
  assert (Hrepl : tag_replacer srcs (tag_match tag short_id rest) =
            Some (link (py_format (display_of si short_id)) (py_format url), [])).
  { unfold tag_replacer, tag_match. simpl. rewrite Hsi.
    assert (source_truthy si = true) as ->.
    { unfold source_truthy. rewrite Hurl. simpl.
      by destruct (bool_decide _), (bool_decide _). }
    by rewrite Hurl. }
  split_and!.
  - done.
  - apply render_of_replace_tags.
    rewrite (replace_tags_around _ _ _ _ _ Htag), Hpre. simpl.
    rewrite Hrepl. simpl. by rewrite Hrest.
  - intros title Ht. unfold display_of. by rewrite Ht.
  - intros domain Ht Hd. unfold display_of. by rewrite Ht, Hd.
  - intros Ht Hd. unfold display_of. by rewrite Ht, Hd.
Qed.

Lemma tag_replaced_by_link_witness :
  render ("Revenue grew " +:+ cite_tag "src-1" +:+ " says report") sources_a =
  Some (cleanup ("Revenue grew " +:+ link "A" "https://a.com" +:+ " says report"), []).
Proof.
  apply (tag_replaced_by_link sources_a "Revenue grew " (cite_tag "src-1")
           "src-1" " says report" source_a (PyStr "https://a.com")
           "Revenue grew " [] " says report" []).
  - by apply (cite_tag_marker "1").
  - reflexivity.
  - reflexivity.
  - vm_compute. reflexivity.
  - vm_compute. reflexivity.
Defined.

(** An entry with an empty title and a domain, as the collector leaves it
    for a chunk with an empty title: the link text is empty, not the
    domain. *)
Lemma empty_title_is_displayed :
  untitled_sources !! "src-1" =
    Some {| src_short_id := Some "src-1";
            src_title := Some (PyStr "");
            src_url := Some (PyStr "https://a.com");
            src_domain := Some (PyStr "a.com");
            src_supported_claims := Some [] |} /\
  render (cite_tag "src-1") untitled_sources = Some (" [](https://a.com)", []) /\
  (forall si, untitled_sources !! "src-1" = Some si ->
     render (cite_tag "src-1") untitled_sources <>
     Some (link (spec_display si "src-1") "https://a.com", [])).
Proof.
  split_and!.
  - vm_compute. reflexivity.
  - vm_compute. reflexivity.
  - intros si Hsi. vm_compute in Hsi. injection Hsi as <-.
    vm_compute. discriminate.
Qed.

(** C3, as the code has it: the replacement starts with a space, and the
    space before the tag stays, so two spaces stand before the link. *)
Theorem render_revenue_example :
  render ("Revenue grew " +:+ cite_tag "src-1" +:+ " , says report.") sources_a =
  Some ("Revenue grew  [A](https://a.com), says report.", []).
Proof. vm_compute. reflexivity. Qed.

(** The result is not the text with a single space before the link. *)
Lemma render_revenue_not_single_space :
  render ("Revenue grew " +:+ cite_tag "src-1" +:+ " , says report.") sources_a <>
  Some ("Revenue grew [A](https://a.com), says report.", []).
Proof. vm_compute. discriminate. Qed.

(** ** Text outside the tags *)

Lemma replace_tags_plain srcs text :
  ~ contains_marker text -> replace_tags srcs text = Some (text, []).
Proof.
  intros Hno. unfold replace_tags. induction text as [|c text IH]; [done|].
  destruct (match_at cite_pattern (String c text)) as [m|] eqn:Hm.
  - exfalso. by eapply Hno, match_contains_marker.
  - rewrite (re_sub_copy _ _ _ _ Hm), IH; [done|].
    intros Hin. by apply Hno, contains_marker_tail.
Qed.

Lemma replace_tags_items srcs items : forall seg0,
  ~ contains_marker seg0 -> cut_ok items ->
  replace_tags srcs (seg0 +:+ tagged_text items) =
  replace_items srcs items ≫= fun '(out, w) => Some (seg0 +:+ out, w).
Proof.
  induction items as [|[[tag id] seg] items IH]; intros seg0 Hno Hcut; simpl.
  - rewrite app_empty_r. by apply replace_tags_plain.
  - apply Forall_cons in Hcut as [[Htag Hseg] Hcut].
    rewrite (replace_tags_around _ _ _ _ _ Htag).
    rewrite (replace_tags_plain _ _ Hno). simpl.
    destruct (tag_replacer srcs _) as [[text w]|]; simpl; [|done].
    rewrite (IH seg Hseg Hcut).
    by destruct (replace_items srcs items) as [[out w']|].
Qed.

Lemma no_marker_empty : ~ contains_marker "".
Proof.
  intros (before & tag & id & rest & Heq & Htag).
  destruct (marker_starts _ _ Htag) as [tail ->].
  by destruct before.
Qed.

(** Every text is cut at its tags. *)
Lemma text_cut n : forall text,
  String.length text <= n ->
  exists seg0 items,
    text = seg0 +:+ tagged_text items /\ ~ contains_marker seg0 /\ cut_ok items.
Proof.
  induction n as [|n IH]; intros text Hlen.
  - destruct text; [|simpl in Hlen; lia].
    exists "", []. split_and!; [done | apply no_marker_empty | apply Forall_nil_2].
  - destruct text as [|c text].
    { exists "", []. split_and!; [done | apply no_marker_empty | apply Forall_nil_2]. }
    destruct (match_at cite_pattern (String c text)) as [m|] eqn:Hm.
    + pose proof (cite_progresses _ _ Hm) as Hshort. simpl in Hshort, Hlen.
      destruct (cite_match_marker _ _ Hm) as (id & _ & Htag & Heq).
      destruct (IH (after m)) as (seg & items & Hafter & Hseg & Hcut); [lia|].
      exists "", ((group0 m, id, seg) :: items). split_and!.
      * rewrite app_empty_l. simpl. by rewrite <- Hafter.
      * apply no_marker_empty.
      * by apply Forall_cons_2.
    + simpl in Hlen.
      destruct (IH text) as (seg0 & items & -> & Hseg & Hcut); [lia|].
      exists (String c seg0), items. split_and!; [done | | done].
      intros (before & tag & id & rest & Heq & Htag).
      destruct before as [|c' before].
      * rewrite app_empty_l in Heq.
        rewrite <- app_cons, Heq, str_app_assoc in Hm.
        by rewrite (marker_match _ _ _ Htag) in Hm.
      * rewrite app_cons in Heq. injection Heq as _ Heq.
        apply Hseg. by exists before, tag, id, rest.
Qed.

(** C4, as the code has it. Every text is cut at its tags, the matches of
    the pattern, into the text before the first tag and the text after each
    tag, none of which holds a match. Whatever tags the text holds, the
    first pass leaves each of these stretches as it is and at its place,
    without a warning, between the replacements of the tags; the result of
    the renderer is that text after the cleanup pass. A text that holds no
    tag passes the first pass unchanged. *)
Theorem text_between_tags_verbatim srcs seg0 items :
  ~ contains_marker seg0 -> cut_ok items ->
  replace_tags srcs (seg0 +:+ tagged_text items) =
    (replace_items srcs items ≫= fun '(out, w) => Some (seg0 +:+ out, w)) /\
  render (seg0 +:+ tagged_text items) srcs =
    (replace_items srcs items ≫= fun '(out, w) =>
       Some (cleanup (seg0 +:+ out), w)) /\
  replace_tags srcs seg0 = Some (seg0, []) /\
  render seg0 srcs = Some (cleanup seg0, []) /\
  forall text,
    exists seg0' items',
      text = seg0' +:+ tagged_text items' /\
      ~ contains_marker seg0' /\ cut_ok items'.
Proof.
  intros Hno Hcut.
  pose proof (replace_tags_items srcs items seg0 Hno Hcut) as Hpass.
  pose proof (replace_tags_plain srcs seg0 Hno) as Hplain.
  split_and!; [done | | done | by apply render_of_replace_tags |].
  - unfold render. rewrite Hpass.
    by destruct (replace_items srcs items) as [[out w]|].
  - intros text. by apply (text_cut (String.length text)).
Qed.

Lemma text_between_tags_verbatim_witness :
  render ("as said <cite source=" +:+ dq +:+ "ref-1" +:+ dq +:+ " /> before"
          +:+ cite_tag "src-1" +:+ " and <cite src-1 /> after") sources_a =
  Some (cleanup ("as said <cite source=" +:+ dq +:+ "ref-1" +:+ dq +:+ " /> before"
                 +:+ " [A](https://a.com)" +:+ " and <cite src-1 /> after"), []).
Proof.
  destruct (text_between_tags_verbatim sources_a
              ("as said <cite source=" +:+ dq +:+ "ref-1" +:+ dq +:+ " /> before")
              [(cite_tag "src-1", "src-1", " and <cite src-1 /> after")])
    as (_ & Hrender & _).
  - rewrite contains_marker_has_match. vm_compute. discriminate.
  - apply Forall_cons_2; [|apply Forall_nil_2]. split.
    + by apply (cite_tag_marker "1").
    + rewrite contains_marker_has_match. vm_compute. discriminate.
  - exact Hrender.
Defined.

(** A tag whose id stands without quotes is replaced. *)
Lemma unquoted_tag_replaced :
  marker "<cite source=src-1 />" "src-1" /\
  render "see <cite source=src-1 /> here" sources_a =
    Some ("see  [A](https://a.com) here", []) /\
  render "see <cite source=src-1 /> here" sources_a <>
    Some ("see <cite source=src-1 /> here", []).
Proof.
  split_and!.
  - apply (Marker " " "" "" "" "" "1" "" "" " "); try done; by left.
  - vm_compute. reflexivity.
  - vm_compute. discriminate.
Qed.

(** C7, as the code has it. A tag whose id has no entry is replaced by
    the empty string, with a warning that names the tag; the text before
    and after it is processed on its own and joined. *)
Theorem absent_tag_elided srcs pre tag short_id rest out1 w1 out2 w2 :
  marker tag short_id ->
  srcs !! short_id = None ->
  replace_tags srcs pre = Some (out1, w1) ->
  replace_tags srcs rest = Some (out2, w2) ->
  tag_replacer srcs (tag_match tag short_id rest) =
    Some ("", [invalid_tag_warning tag]) /\
  render (pre +:+ tag +:+ rest) srcs =
    Some (cleanup (out1 +:+ out2), w1 ++ [invalid_tag_warning tag] ++ w2).
Proof.
  intros Htag Hno Hpre Hrest.
  assert (Hrepl : tag_replacer srcs (tag_match tag short_id rest) =
            Some ("", [invalid_tag_warning tag])).
  { unfold tag_replacer, tag_match. simpl. by rewrite Hno. }
  split; [done|].
  apply render_of_replace_tags.
  rewrite (replace_tags_around _ _ _ _ _ Htag), Hpre. simpl.
  rewrite Hrepl. simpl. by rewrite Hrest.
Qed.

Lemma absent_tag_elided_witness :
  render ("no source" +:+ cite_tag "src-7" +:+ " here") sources_a =
  Some (cleanup ("no source" +:+ " here"),
        [invalid_tag_warning (cite_tag "src-7")]).
Proof.
  apply (absent_tag_elided sources_a "no source" (cite_tag "src-7") "src-7"
           " here" "no source" [] " here" []).
  - by apply (cite_tag_marker "7").
  - reflexivity.
  - vm_compute. reflexivity.
  - vm_compute. reflexivity.
Defined.

(** Where a tag is written around a tag without entry, the inner one is
    elided and what is left is a tag, which stays in the output. *)
Lemma elision_leaves_tag :
  render nested_tags ∅ =
    Some (cite_tag "src-1", [invalid_tag_warning (cite_tag "src-9")]) /\
  contains_marker (cite_tag "src-1").
Proof.
  split.
  - vm_compute. reflexivity.
  - exists "", (cite_tag "src-1"), "src-1", "". split; [by vm_compute|].
    by apply (cite_tag_marker "1").
Qed.

(** * Further properties *)

(** ** Events without chunks *)

Lemma no_chunks_event_chunks event : no_chunks event <-> event_chunks event = None.
Proof.
  unfold no_chunks, event_chunks.
  destruct (grounding_metadata event) as [gm|]; [|done].
  destruct (grounding_chunks gm) as [[|c cs]|]; split; try done; auto.
  intros [?|?]; done.
Qed.

Lemma events_loop_skip events l :
  Forall no_chunks events -> events_loop events l = Some l.
Proof.
  induction 1 as [|event events Hno _ IH]; simpl; [done|].
  unfold event_body. apply no_chunks_event_chunks in Hno. by rewrite Hno.
Qed.

(** X1. Events that have no grounding metadata, or whose list of chunks is
    missing or empty, are passed over whole, their supports included: the
    callback returns, the index and the sources are what they were, and the
    two keys of the registry are written. This holds from any state, and
    for the empty list of events. *)
Theorem events_without_chunks_ignored events st :
  Forall no_chunks events ->
  collect_research_sources_callback events st =
  Some (with_registry (index_of st) (sources_of st) st).
Proof.
  intros Hno. unfold collect_research_sources_callback.
  fold (index_of st). fold (sources_of st).
  by rewrite (events_loop_skip _ _ Hno).
Qed.

Lemma events_without_chunks_ignored_witness :
  collect_research_sources_callback
    [ {| grounding_metadata := None |};
      {| grounding_metadata :=
           Some {| grounding_chunks := Some [];
                   grounding_supports :=
                     Some [sample_support "claim text" None [0%Z]] |} |} ]
    state_ab =
  Some (with_registry (index_of state_ab) (sources_of state_ab) state_ab).
Proof.
  apply events_without_chunks_ignored.
  apply Forall_cons_2. { exact I. }
  apply Forall_cons_2. { right. reflexivity. }
  apply Forall_nil_2.
Defined.

(** ** Composition of invocations *)

Lemma events_loop_app events1 events2 l :
  events_loop (events1 ++ events2) l =
  events_loop events1 l ≫= events_loop events2.
Proof.
  revert l. induction events1 as [|event events1 IH]; intros l; simpl; [done|].
  destruct (event_body event l); simpl; [apply IH | done].
Qed.

Lemma chunk_body_counter idx chunk l l' :
  chunk_body idx chunk l = Some l' ->
  l_counter l = length (l_index l) + 1 ->
  l_counter l' = length (l_index l') + 1.
Proof.
  unfold chunk_body. destruct (web chunk) as [w|]; [|by intros [= <-]].
  destruct (dict_contains (l_index l) (web_uri w)) eqn:Hin; simpl.
  - destruct (dict_get _ _); simpl; [|done]. by intros [= <-].
  - apply dict_contains_false in Hin.
    rewrite (dict_set_new _ _ _ Hin), (dict_get_app_new _ _ _ Hin). simpl.
    intros [= <-] Hc. simpl. rewrite length_app. simpl. lia.
Qed.

Lemma chunks_loop_counter chunks : forall idx l l',
  chunks_loop idx chunks l = Some l' ->
  l_counter l = length (l_index l) + 1 ->
  l_counter l' = length (l_index l') + 1.
Proof.
  induction chunks as [|chunk chunks IH]; intros idx l l'; simpl.
  - by intros [= <-].
  - destruct (chunk_body idx chunk l) as [l1|] eqn:Hbody; simpl; [|done].
    intros Hloop Hc. eapply IH; [done|]. by eapply chunk_body_counter.
Qed.

Lemma event_body_counter event l l' :
  event_body event l = Some l' ->
  l_counter l = length (l_index l) + 1 ->
  l_counter l' = length (l_index l') + 1.
Proof.
  unfold event_body. destruct (event_chunks event) as [chunks|]; [|by intros [= <-]].
  destruct (chunks_loop 0 chunks _) as [l1|] eqn:Hloop; simpl; [|done].
  destruct (supports_loop _ _ _) as [srcs|]; simpl; [|done].
  intros [= <-] Hc. simpl. by apply (chunks_loop_counter _ _ _ _ Hloop).
Qed.

Lemma events_loop_counter events : forall l l',
  events_loop events l = Some l' ->
  l_counter l = length (l_index l) + 1 ->
  l_counter l' = length (l_index l') + 1.
Proof.
  induction events as [|event events IH]; intros l l'; simpl.
  - by intros [= <-].
  - destruct (event_body event l) as [l1|] eqn:Hbody; simpl; [|done].
    intros Hloop Hc. eapply IH; [done|]. by eapply event_body_counter.
Qed.

(** The chunk map an event finds does not matter: it starts its own. *)
Lemma event_body_same event l1 l2 :
  same_registry l1 l2 ->
  match event_body event l1, event_body event l2 with
  | Some l1', Some l2' => same_registry l1' l2'
  | None, None => True
  | _, _ => False
  end.
Proof.
  intros (Hi & Hs & Hc). unfold event_body.
  destruct (event_chunks event) as [chunks|]; [|done].
  rewrite Hi, Hs, Hc.
  destruct (chunks_loop 0 chunks _) as [l'|]; simpl; [|done].
  by destruct (supports_loop _ _ _).
Qed.

Lemma events_loop_same events : forall l1 l2,
  same_registry l1 l2 ->
  match events_loop events l1, events_loop events l2 with
  | Some l1', Some l2' => same_registry l1' l2'
  | None, None => True
  | _, _ => False
  end.
Proof.
  induction events as [|event events IH]; intros l1 l2 Hsame; simpl; [done|].
  pose proof (event_body_same event l1 l2 Hsame) as Hbody.
  destruct (event_body event l1), (event_body event l2); simpl; try done.
  by apply IH.
Qed.

(** X2. One invocation on the events [events1 ++ events2] is the invocation
    on [events1] followed by the invocation on [events2], failures included:
    where the session's events are cut into invocations does not matter.
    This holds from any state. *)
Theorem callback_app events1 events2 st :
  collect_research_sources_callback (events1 ++ events2) st =
  collect_research_sources_callback events1 st ≫=
  collect_research_sources_callback events2.
Proof.
  unfold collect_research_sources_callback. rewrite events_loop_app.
  destruct (events_loop events1 _) as [l1|] eqn:Hloop1; simpl; [|done].
  pose proof (events_loop_counter _ _ _ Hloop1 eq_refl) as Hc.
  pose proof (events_loop_same events2 l1
    {| l_index := l_index l1; l_sources := l_sources l1;
       l_counter := length (l_index l1) + 1; l_chunks_info := ∅ |}) as Hsame.
  destruct (events_loop events2 l1) as [l2|],
           (events_loop events2 _) as [l2'|]; simpl.
  - destruct Hsame as (-> & -> & _); [by split_and! | done].
  - destruct Hsame. by split_and!.
  - destruct Hsame. by split_and!.
  - done.
Qed.

(** ** The entries of the sources *)

(** The title the callback stores is the title of the chunk: where the
    title equals the domain, the domain it takes instead is the same value. *)
Lemma title_rule w :
  (if negb (bool_decide (web_title w = web_domain w))
   then web_title w else web_domain w) = web_title w.
Proof. by case_bool_decide. Qed.

Lemma first_web_uri url webs w : first_web url webs = Some w -> web_uri w = url.
Proof.
  induction webs as [|w' webs IH]; simpl; [done|].
  destruct (decide (web_uri w' = url)); [by intros [= <-] | done].
Qed.

Lemma first_web_app_l url webs webs' w :
  first_web url webs = Some w -> first_web url (webs ++ webs') = Some w.
Proof.
  induction webs as [|w' webs IH]; simpl; [done|].
  by destruct (decide (web_uri w' = url)).
Qed.

Lemma first_web_app_new webs w :
  web_uri w ∉ web_uri <$> webs -> first_web (web_uri w) (webs ++ [w]) = Some w.
Proof.
  induction webs as [|w' webs IH]; simpl.
  - intros _. by rewrite decide_True.
  - intros Hnin. apply not_elem_of_cons in Hnin as [Hne Hnin].
    rewrite decide_False by done. auto.
Qed.

Lemma dict_get_app_ne {K V} `{EqDecision K} (d : list (K * V)) k k' v :
  k <> k' -> dict_get (d ++ [(k', v)]) k = dict_get d k.
Proof.
  intros Hne. induction d as [|[k0 v0] d IH]; simpl.
  - by rewrite decide_False.
  - by destruct (decide (k = k0)).
Qed.

Lemma chunk_body_webs webs idx chunk l l' :
  webs_ok webs l ->
  chunk_body idx chunk l = Some l' ->
  webs_ok (webs ++ omap web [chunk]) l'.
Proof.
  intros [Hok Hkeys Hent] Hbody.
  assert (Hok' : locals_ok l').
  { destruct (chunk_body_step idx chunk l Hok) as (l'' & Hl'' & Hstep).
    assert (l'' = l') as -> by congruence. exact (cs_ok _ _ _ _ Hstep). }
  split; [done|..]; clear Hok'; revert Hbody; unfold chunk_body; simpl;
    destruct (web chunk) as [w|] eqn:Hweb; simpl.
  2,4: intros [= <-]; rewrite app_nil_r; done.
  - (* the URLs *)
    destruct (dict_contains (l_index l) (web_uri w)) eqn:Hin; simpl.
    + apply dict_contains_elem in Hin.
      destruct (dict_get _ _); simpl; [|done]. intros [= <-] url. simpl.
      rewrite fmap_app, elem_of_app, Hkeys. simpl. rewrite list_elem_of_singleton.
      split; [auto | intros [?|Heq]; [done | subst url; by apply Hkeys]].
    + apply dict_contains_false in Hin.
      rewrite (dict_set_new _ _ _ Hin), (dict_get_app_new _ _ _ Hin). simpl.
      intros [= <-] url. simpl.
      rewrite !fmap_app, !elem_of_app, Hkeys. simpl.
      by rewrite !list_elem_of_singleton.
  - (* the entries *)
    destruct (dict_contains (l_index l) (web_uri w)) eqn:Hin; simpl.
    + destruct (dict_get _ _); simpl; [|done]. intros [= <-] url id Hid.
      simpl in *. destruct (Hent url id Hid) as (w0 & cl & Hw0 & Hsrc).
      exists w0, cl. split; [by apply first_web_app_l | done].
    + apply dict_contains_false in Hin.
      rewrite (dict_set_new _ _ _ Hin), (dict_get_app_new _ _ _ Hin). simpl.
      intros [= <-] url id. simpl. rewrite title_rule.
      destruct (decide (url = web_uri w)) as [->|Hne].
      * rewrite (dict_get_app_new _ _ _ Hin). intros [= <-].
        exists w, []. split; [|by rewrite lookup_insert_eq].
        apply first_web_app_new. by rewrite <- Hkeys.
      * rewrite dict_get_app_ne by done. intros Hid.
        destruct (Hent url id Hid) as (w0 & cl & Hw0 & Hsrc).
        exists w0, cl. split; [by apply first_web_app_l|].
        rewrite lookup_insert_ne; [done|].
        intros <-. apply dict_get_value in Hid.
        rewrite (ok_ids _ Hok), (ok_counter _ Hok) in Hid.
        apply list_elem_of_fmap in Hid as (n & Hn%short_id_of_inj & Hseq%elem_of_seq).
        lia.
Qed.

Lemma chunks_loop_webs chunks : forall webs idx l l',
  webs_ok webs l ->
  chunks_loop idx chunks l = Some l' ->
  webs_ok (webs ++ omap web chunks) l'.
Proof.
  induction chunks as [|chunk chunks IH]; intros webs idx l l' Hok; simpl.
  - intros [= <-]. by rewrite app_nil_r.
  - destruct (chunk_body idx chunk l) as [l1|] eqn:Hbody; simpl; [|done].
    intros Hloop.
    pose proof (chunk_body_webs _ _ _ _ _ Hok Hbody) as Hok1.
    pose proof (IH _ _ _ _ Hok1 Hloop) as Hok2.
    simpl in Hok2. destruct (web chunk); simpl in *;
      by rewrite <- ?app_assoc, ?app_nil_r in Hok2.
Qed.

(** Appending claims leaves an entry what it is, but for its claims. *)
Lemma append_claims_entries cs : forall srcs srcs' id w claims,
  append_claims cs srcs = Some srcs' ->
  srcs !! id = Some (entry_of id w claims) ->
  exists claims', srcs' !! id = Some (entry_of id w claims').
Proof.
  induction cs as [|[id' c] cs IH]; intros srcs srcs' id w claims; simpl.
  - intros [= <-]. eauto.
  - unfold append_claim at 1.
    destruct (srcs !! id') as [si|] eqn:Hsi; simpl; [|done].
    destruct (src_supported_claims si) as [cl|] eqn:Hcl; simpl; [|done].
    intros Hrest Hid. destruct (decide (id' = id)) as [->|Hne].
    + rewrite Hid in Hsi. injection Hsi as <-. simpl in Hcl. injection Hcl as <-.
      apply (IH _ _ id w (claims ++ [c]) Hrest). by rewrite lookup_insert_eq.
    + apply (IH _ _ id w claims Hrest). by rewrite lookup_insert_ne.
Qed.

Lemma event_body_webs webs event l l' :
  webs_ok webs l ->
  event_body event l = Some l' ->
  webs_ok (webs ++ event_webs event) l'.
Proof.
  intros Hok Hbody.
  assert (Hok' : locals_ok l').
  { destruct (event_body_step event l (wo_ok _ _ Hok)) as (l'' & Hl'' & Hstep).
    assert (l'' = l') as -> by congruence. exact (es_ok _ _ _ Hstep). }
  revert Hbody. unfold event_body, event_webs.
  destruct (event_chunks event) as [chunks|].
  2:{ intros [= <-]. by rewrite app_nil_r. }
  destruct (chunks_loop 0 chunks _) as [l1|] eqn:Hloop; simpl; [|done].
  assert (Hok1 : webs_ok (webs ++ omap web chunks) l1).
  { eapply chunks_loop_webs; [|exact Hloop].
    destruct Hok as [[Hnd Hids Hcnt Hdom Hcl Hinfo] Hkeys Hent].
    split; [by split | done | done]. }
  rewrite supports_loop_claims.
  destruct (append_claims _ (l_sources l1)) as [srcs|] eqn:Happ; simpl; [|done].
  intros [= <-]. destruct Hok1 as [_ Hkeys1 Hent1].
  split; simpl; [done | done |].
  intros url id Hid. destruct (Hent1 url id Hid) as (w & cl & Hw & Hsrc).
  destruct (append_claims_entries _ _ _ _ _ _ Happ Hsrc) as [cl' Hsrc'].
  eauto.
Qed.

Lemma history_webs_app events1 events2 :
  history_webs (events1 ++ events2) = history_webs events1 ++ history_webs events2.
Proof. unfold history_webs. by rewrite fmap_app, join_app. Qed.

Lemma events_loop_webs events : forall webs l l',
  webs_ok webs l ->
  events_loop events l = Some l' ->
  webs_ok (webs ++ history_webs events) l'.
Proof.
  induction events as [|event events IH]; intros webs l l' Hok; simpl.
  - intros [= <-]. by rewrite app_nil_r.
  - destruct (event_body event l) as [l1|] eqn:Hbody; simpl; [|done].
    intros Hloop.
    pose proof (event_body_webs _ _ _ _ Hok Hbody) as Hok1.
    pose proof (IH _ _ _ Hok1 Hloop) as Hok2.
    change (history_webs (event :: events))
      with (event_webs event ++ history_webs events).
    by rewrite app_assoc.
Qed.

(** In a run the registry agrees with the web references ingested. *)
Lemma run_webs history st :
  run history st -> webs_ok (history_webs history) (locals_of st).
Proof.
  induction 1 as [|history st events st' Hrun IH Hcall
                  |history st st' Hrun IH Hidx Hsrc].
  - split; [apply locals_of_ok_start | done |].
    intros url id Hid. done.
  - revert Hcall. unfold collect_research_sources_callback.
    destruct (events_loop events _) as [l'|] eqn:Hloop; simpl; [|done].
    intros [= <-].
    pose proof (events_loop_webs _ _ _ _ IH Hloop) as [Hok Hkeys Hent].
    rewrite history_webs_app. unfold locals_of, index_of, sources_of. simpl.
    rewrite <- (ok_counter _ Hok).
    destruct Hok as [Hnd Hids Hcnt Hdom Hcl Hinfo].
    split; [by split | done | done].
  - unfold locals_of, index_of, sources_of in *. by rewrite Hidx, Hsrc.
Qed.

(** X3. In a run, each URL of the index has an entry in the sources under
    its id, with all five keys: the id, the URL, and the title and the
    domain of the first chunk that carried the URL; a later chunk with the
    same URL does not change them. Conversely each entry of the sources is
    that of a URL of the index. *)
Theorem first_sighting_fixes_entry history st :
  run history st ->
  (forall url short_id,
     dict_get (index_of st) url = Some short_id ->
     exists w,
       first_web url (history_webs history) = Some w /\
       sources_of st !! short_id =
         Some {| src_short_id := Some short_id;
                 src_title := Some (web_title w);
                 src_url := Some url;
                 src_domain := Some (web_domain w);
                 src_supported_claims :=
                   Some (claims_at (sources_of st) short_id) |}) /\
  (forall short_id si,
     sources_of st !! short_id = Some si ->
     exists url,
       src_url si = Some url /\ dict_get (index_of st) url = Some short_id).
Proof.
  intros Hrun. destruct (run_webs _ _ Hrun) as [Hok Hkeys Hent].
  simpl in Hent.
  assert (Hfwd : forall url id,
            dict_get (index_of st) url = Some id ->
            exists w,
              first_web url (history_webs history) = Some w /\
              sources_of st !! id =
                Some (entry_of id w (claims_at (sources_of st) id))).
  { intros url id Hid. destruct (Hent url id Hid) as (w & cl & Hw & Hsrc).
    exists w. split; [done|]. unfold claims_at. by rewrite Hsrc. }
  split.
  - intros url id Hid. destruct (Hfwd url id Hid) as (w & Hw & Hsrc).
    exists w. split; [done|]. rewrite Hsrc. unfold entry_of.
    by rewrite (first_web_uri _ _ _ Hw).
  - intros id si Hsi.
    assert (Hin : id ∈ (index_of st).*2).
    { apply (ok_dom _ Hok). simpl. by eexists. }
    apply list_elem_of_fmap in Hin as ([url id'] & -> & Hin). simpl in *.
    apply list_elem_of_lookup in Hin as [n Hn].
    pose proof (dict_get_lookup _ _ _ _ (ok_nodup _ Hok) Hn) as Hid.
    destruct (Hfwd url id' Hid) as (w & Hw & Hsrc).
    exists url. split; [|done].
    rewrite Hsrc in Hsi. injection Hsi as <-. simpl.
    by rewrite (first_web_uri _ _ _ Hw).
Qed.

Lemma first_sighting_fixes_entry_witness :
  sources_of state_abc !! "src-2" =
  Some {| src_short_id := Some "src-2";
          src_title := Some (PyStr "b.com");
          src_url := Some (PyStr "https://b.com");
          src_domain := Some (PyStr "b.com");
          src_supported_claims := Some (claims_at (sources_of state_abc) "src-2") |}.
Proof.
  destruct (first_sighting_fixes_entry _ _ run_sample) as [Hfwd _].
  destruct (Hfwd (PyStr "https://b.com") "src-2") as (w & Hw & Hsrc).
  { vm_compute. reflexivity. }
  vm_compute in Hw. injection Hw as <-. exact Hsrc.
Defined.

(** ** The claims of a source *)

Lemma history_claims_app index events1 events2 :
  history_claims index (events1 ++ events2) =
  history_claims index events1 ++ history_claims index events2.
Proof. unfold history_claims. by rewrite fmap_app, join_app. Qed.

Lemma history_claims_prefix index index' events :
  index `prefix_of` index' ->
  Forall (fun u => u ∈ index.*1) (history_urls events) ->
  history_claims index events = history_claims index' events.
Proof.
  intros Hpre. induction events as [|event events IH]; [done|].
  rewrite history_urls_cons, Forall_app. intros [Hev Hrest].
  rewrite !history_claims_cons, IH by done.
  by rewrite (event_claims_prefix _ _ _ Hpre Hev).
Qed.

(** X4. In a run, the claims of a source are the claims that the ingested
    events bring for its id, event after event, support after support, in
    the order of ingestion: nothing is lost, reordered or merged, and an
    event ingested twice counts twice. *)
Theorem claims_in_ingestion_order history st :
  run history st ->
  forall short_id,
    claims_at (sources_of st) short_id =
    claims_for short_id (history_claims (index_of st) history).
Proof.
  induction 1 as [|history st events st' Hrun IH Hcall
                  |history st st' Hrun IH Hidx Hsrc]; intros id.
  - done.
  - destruct (run_registry _ _ Hrun) as [Hok Hkeys].
    destruct (callback_step events st Hok) as (st'' & Hcall' & _ & Hstep & _).
    assert (st'' = st') as -> by congruence.
    pose proof (es_claims _ _ _ Hstep id) as Hcl. simpl in Hcl.
    rewrite Hcl, IH, history_claims_app, claims_for_app. f_equal. f_equal.
    apply history_claims_prefix; [exact (es_prefix _ _ _ Hstep)|].
    apply Forall_forall. intros u Hu. rewrite Hkeys.
    apply first_seen_from_elem. by right.
  - unfold sources_of, index_of in *. rewrite Hsrc, Hidx. apply IH.
Qed.

Lemma claims_in_ingestion_order_witness :
  claims_at (sources_of state_abc) "src-2" =
  [ {| text_segment := PyStr "claim text"; confidence := 0.5%float |};
    {| text_segment := PyStr "claim text"; confidence := 0.5%float |};
    {| text_segment := PyStr "more"; confidence := 0.5%float |} ].
Proof.
  rewrite (claims_in_ingestion_order _ _ run_sample "src-2").
  vm_compute. reflexivity.
Defined.

(** ** A registry whose keys disagree *)

Lemma dict_get_contains d (k : pystr) (v : string) :
  dict_get d k = Some v -> dict_contains d k = true.
Proof.
  intros Hget%dict_get_elem. apply dict_contains_elem.
  apply list_elem_of_fmap. by exists (k, v).
Qed.

(** Chunks whose URLs are all in the index leave the index, the sources
    and the counter, and map the position of each to the id of its URL. *)
Lemma chunks_loop_known chunks : forall idx l,
  Forall (fun w => is_Some (dict_get (l_index l) (web_uri w))) (omap web chunks) ->
  exists info,
    chunks_loop idx chunks l =
      Some {| l_index := l_index l; l_sources := l_sources l;
              l_counter := l_counter l; l_chunks_info := info |} /\
    (forall z, (z < Z.of_nat idx)%Z -> info !! z = l_chunks_info l !! z) /\
    (forall n w,
       chunks !! n = Some {| web := Some w |} ->
       info !! Z.of_nat (idx + n) = dict_get (l_index l) (web_uri w)).
Proof.
  induction chunks as [|chunk chunks IH]; intros idx l Hall.
  - exists (l_chunks_info l). split_and!; [by destruct l | done | done].
  - destruct chunk as [[w|]]; simpl in Hall |- *.
    + apply Forall_cons in Hall as [[id Hid] Hall].
      unfold chunk_body. simpl.
      rewrite (dict_get_contains _ _ _ Hid). simpl. rewrite Hid. simpl.
      destruct (IH (S idx)
                  {| l_index := l_index l; l_sources := l_sources l;
                     l_counter := l_counter l;
                     l_chunks_info := <[Z.of_nat idx := id]> (l_chunks_info l) |}
                  Hall) as (info & -> & Hlow & Hpos).
      simpl in *. exists info. split_and!; [done | |].
      * intros z Hz. rewrite Hlow by lia. by rewrite lookup_insert_ne by lia.
      * intros [|n] w' Hn; simpl in Hn.
        -- injection Hn as <-. rewrite Nat.add_0_r, Hlow by lia.
           by rewrite lookup_insert_eq.
        -- rewrite <- (Hpos n w' Hn). f_equal. lia.
    + unfold chunk_body. simpl.
      destruct (IH (S idx) l Hall) as (info & -> & Hlow & Hpos).
      exists info. split_and!; [done | |].
      * intros z Hz. apply Hlow. lia.
      * intros [|n] w' Hn; simpl in Hn; [done|].
        rewrite <- (Hpos n w' Hn). f_equal. lia.
Qed.

Lemma append_claim_unusable id id' c srcs srcs' :
  entry_unusable srcs id ->
  append_claim id' c srcs = Some srcs' ->
  entry_unusable srcs' id.
Proof.
  intros Hbad Happ. unfold append_claim in Happ.
  destruct (srcs !! id') as [si'|] eqn:Hsi'; simpl in Happ; [|done].
  destruct (src_supported_claims si') as [claims|] eqn:Hcl; simpl in Happ; [|done].
  injection Happ as <-.
  assert (id' <> id) as Hne.
  { intros ->. destruct Hbad as [Hbad|(si & Hsi & Hnone)]; congruence. }
  destruct Hbad as [Hbad|(si & Hsi & Hnone)].
  - left. by rewrite lookup_insert_ne.
  - right. exists si. by rewrite lookup_insert_ne.
Qed.

Lemma append_claim_fails id c srcs :
  entry_unusable srcs id -> append_claim id c srcs = None.
Proof.
  intros [Hbad|(si & Hsi & Hnone)]; unfold append_claim.
  - by rewrite Hbad.
  - rewrite Hsi. simpl. by rewrite Hnone.
Qed.

Lemma index_body_unusable info support scores i chunk_idx id srcs srcs' :
  entry_unusable srcs id ->
  index_body info support scores i chunk_idx srcs = Some srcs' ->
  entry_unusable srcs' id /\ info !! chunk_idx <> Some id.
Proof.
  intros Hbad. unfold index_body.
  destruct (info !! chunk_idx) as [id'|] eqn:Hinfo.
  - rewrite guarded_score. simpl. intros Happ. split.
    + by eapply append_claim_unusable.
    + intros [= ->]. by rewrite append_claim_fails in Happ.
  - intros [= <-]. done.
Qed.

Lemma indices_loop_unusable info support scores idxs id : forall i srcs srcs',
  entry_unusable srcs id ->
  indices_loop info support scores i idxs srcs = Some srcs' ->
  entry_unusable srcs' id /\
  forall chunk_idx, chunk_idx ∈ idxs -> info !! chunk_idx <> Some id.
Proof.
  induction idxs as [|chunk_idx idxs IH]; intros i srcs srcs' Hbad; simpl.
  - intros [= <-]. split; [done|]. by intros z ?%elem_of_nil.
  - destruct (index_body info support scores i chunk_idx srcs) as [srcs1|] eqn:Hbody;
      simpl; [|done].
    intros Hloop.
    destruct (index_body_unusable _ _ _ _ _ _ _ _ Hbad Hbody) as [Hbad1 Hne].
    destruct (IH _ _ _ Hbad1 Hloop) as [Hbad' Hrest].
    split; [done|]. intros z [->|Hin]%elem_of_cons; auto.
Qed.

Lemma supports_loop_unusable info supports id : forall srcs srcs',
  entry_unusable srcs id ->
  supports_loop info supports srcs = Some srcs' ->
  forall support chunk_idx,
    support ∈ supports ->
    chunk_idx ∈ default [] (grounding_chunk_indices support) ->
    info !! chunk_idx <> Some id.
Proof.
  induction supports as [|support supports IH]; intros srcs srcs' Hbad; simpl.
  - intros _ s z Hin. by apply elem_of_nil in Hin.
  - destruct (support_body info support srcs) as [srcs1|] eqn:Hbody; simpl; [|done].
    intros Hloop s z Hs Hz. unfold support_body in Hbody.
    destruct (indices_loop_unusable _ _ _ _ _ _ _ _ Hbad Hbody) as [Hbad1 Hhere].
    apply elem_of_cons in Hs as [->|Hs]; [by apply Hhere|].
    by eapply IH.
Qed.

(** X5. The callback relies on the two keys of the registry agreeing. From
    a state whose index has a URL while the sources have no entry under its
    id, or an entry without its list of claims, the callback raises on an
    event all of whose chunks carry URLs of the index, when one of the
    supports of the event cites the position of a chunk with that URL;
    whatever else the event holds and whatever events follow. *)
Theorem missing_entry_raises st event rest chunks support n w short_id :
  Forall (fun w' => is_Some (dict_get (index_of st) (web_uri w')))
         (event_webs event) ->
  event_chunks event = Some chunks ->
  chunks !! n = Some {| web := Some w |} ->
  support ∈ event_supports event ->
  Z.of_nat n ∈ default [] (grounding_chunk_indices support) ->
  dict_get (index_of st) (web_uri w) = Some short_id ->
  entry_unusable (sources_of st) short_id ->
  collect_research_sources_callback (event :: rest) st = None.
Proof.
  intros Hall Hchunks Hn Hsupport Hidx Hid Hbad.
  unfold collect_research_sources_callback.
  fold (index_of st). fold (sources_of st).
  simpl events_loop. unfold event_body. rewrite Hchunks.
  unfold event_webs in Hall. rewrite Hchunks in Hall.
  cbn [l_index l_sources l_counter].
  destruct (chunks_loop_known chunks 0
              {| l_index := index_of st; l_sources := sources_of st;
                 l_counter := length (index_of st) + 1; l_chunks_info := ∅ |}
              Hall) as (info & -> & _ & Hpos).
  simpl.
  destruct (supports_loop info (event_supports event) (sources_of st))
    as [srcs'|] eqn:Hloop; [|done].
  exfalso.
  apply (supports_loop_unusable _ _ _ _ _ Hbad Hloop support (Z.of_nat n)
           Hsupport Hidx).
  pose proof (Hpos n w Hn) as Hinfo. simpl in Hinfo. by rewrite Hinfo.
Qed.

Lemma missing_entry_raises_witness :
  collect_research_sources_callback
    [ sample_event
        [ {| web := None |}; web_chunk "https://a.com" "A" "a.com" ]
        [ sample_support "first" None [5]%Z;
          sample_support "claim text" None [0; 1]%Z ];
      event_bc ]
    {| url_to_short_id := Some [(PyStr "https://a.com", "src-1")];
       sources := None;
       final_cited_report := None;
       final_report_with_citations := None;
       research_evaluation := None |} = None.
Proof.
  apply (missing_entry_raises _ _ _
           [ {| web := None |}; web_chunk "https://a.com" "A" "a.com" ]
           (sample_support "claim text" None [0; 1]%Z) 1
           {| web_uri := PyStr "https://a.com"; web_title := PyStr "A";
              web_domain := PyStr "a.com" |} "src-1").
  - apply Forall_cons_2; [|apply Forall_nil_2]. by eexists.
  - reflexivity.
  - reflexivity.
  - apply elem_of_cons. right. apply elem_of_cons. by left.
  - apply elem_of_cons. right. apply elem_of_cons. by left.
  - reflexivity.
  - left. reflexivity.
Defined.

(** ** The grammar of the tag pattern *)

(** X6. The pattern of the first pass matches at the start of a text
    exactly when the text starts with a citation tag of the grammar
    [marker]; the match is then that tag, group 1 its id, and the rest of
    the text follows. Both quotes are optional, independently, and
    whitespace may stand on either side of each. *)
Theorem cite_pattern_grammar s m :
  match_at cite_pattern s = Some m <->
  exists tag short_id rest,
    marker tag short_id /\ s = tag +:+ rest /\ m = tag_match tag short_id rest.
Proof.
  split.
  - intros Hm. destruct (cite_match_marker _ _ Hm) as (id & Hg1 & Htag & Hs).
    exists (group0 m), id, (after m). split_and!; [done | done |].
    destruct m as [g0 g1 a]. simpl in *. by rewrite Hg1.
  - intros (tag & id & rest & Htag & -> & ->). by apply marker_match.
Qed.

(** ** The cleanup pass *)

(** Greedy repetition before a continuation that fails on the class. *)
Lemma star_bt_skip {R} p s (k : string -> option R) :
  (forall c s', p c = true -> k (String c s') = None) ->
  star_bt p s k = k (skip_class p s).
Proof.
  intros Hk. induction s as [|c s IH]; simpl; [done|].
  destruct (p c) eqn:Hp; [|done].
  rewrite IH. destruct (k (skip_class p s)) eqn:Hks; [done|].
  by apply Hk.
Qed.

Lemma space_not_punct c : is_space c = true -> is_punct c = false.
Proof. destruct c as [[] [] [] [] [] [] [] []]; by vm_compute. Qed.

(** The pattern of the second pass at a position: it matches when the
    character is whitespace and only whitespace separates it from a
    punctuation mark, which is group 1. *)
Lemma cleanup_match c s :
  match_at cleanup_pattern (String c s) =
  if is_space c then
    match skip_class is_space s with
    | String p rest =>
        if is_punct p then
          Some {| group0 := consumed (String c s) rest;
                  group1 := Some (String p "");
                  after := rest |}
        else None
    | EmptyString => None
    end
  else None.
Proof.
  unfold match_at, cleanup_pattern, plus. rewrite !bt_cat. simpl bt at 1.
  destruct (is_space c); [|done].
  simpl. rewrite star_bt_skip.
  - destruct (skip_class is_space s) as [|p rest]; [done|].
    destruct (is_punct p); [|done].
    do 2 f_equal. f_equal. apply (consumed_app (String p "") rest).
  - intros c' s' Hc'. by rewrite (space_not_punct _ Hc').
Qed.

Lemma strip_spaces_skip s p rest :
  skip_class is_space s = String p rest -> is_punct p = true ->
  strip_spaces s = String p (strip_spaces rest).
Proof.
  intros Hskip Hp. induction s as [|c s IH]; simpl in *; [done|].
  destruct (is_space c) eqn:Hc; simpl.
  - unfold before_punct. rewrite Hskip, Hp. by apply IH.
  - injection Hskip as -> ->. done.
Qed.

Lemma re_sub_cleanup_strip s :
  re_sub cleanup_pattern keep_group1 s = Some (strip_spaces s, []).
Proof.
  assert (H : forall n t, String.length t <= n ->
            re_sub cleanup_pattern keep_group1 t = Some (strip_spaces t, [])).
  { induction n as [|n IH]; intros t Ht.
    - destruct t; [done | simpl in Ht; lia].
    - destruct t as [|c t]; [done|]. simpl in Ht.
      pose proof (cleanup_match c t) as Hm.
      destruct (match_at cleanup_pattern (String c t)) as [m|] eqn:Hmatch.
      + rewrite (re_sub_match _ _ _ _ _ cleanup_progresses Hmatch).
        pose proof (cleanup_progresses _ _ Hmatch) as Hlt. simpl in Hlt.
        rewrite (IH (after m)) by lia.
        destruct (is_space c) eqn:Hc; [|done].
        destruct (skip_class is_space t) as [|p rest] eqn:Hskip; [done|].
        destruct (is_punct p) eqn:Hp; [|done].
        injection Hm as ->. simpl.
        unfold before_punct. rewrite Hc, Hskip, Hp. simpl.
        by rewrite (strip_spaces_skip _ _ _ Hskip Hp).
      + rewrite (re_sub_copy _ _ _ _ Hmatch), (IH t) by lia. simpl.
        unfold before_punct.
        destruct (is_space c); [|done].
        destruct (skip_class is_space t) as [|p rest]; [done|].
        by destruct (is_punct p). }
  eauto.
Qed.

Lemma cleanup_strip s : cleanup s = strip_spaces s.
Proof. unfold cleanup. by rewrite re_sub_cleanup_strip. Qed.

(** X7. The cleanup pass deletes whitespace and nothing else, and it
    deletes exactly the whitespace that stands before a punctuation mark
    [.], [,], [;] or [:]: a whitespace character goes when only whitespace
    separates it from the next such mark, every other character stays. *)
Theorem cleanup_strips_spaces s : cleanup s = strip_spaces s.
Proof.
  unfold cleanup.
  pose proof (re_sub_cleanup_strip s) as Hsub.
  by rewrite Hsub.
Qed.

Lemma before_punct_space c s :
  is_space c = true -> before_punct (String c s) = before_punct s.
Proof. intros Hc. unfold before_punct. simpl. by rewrite Hc. Qed.

Lemma before_punct_other c s :
  is_space c = false -> before_punct (String c s) = is_punct c.
Proof. intros Hc. unfold before_punct. simpl. by rewrite Hc. Qed.

Lemma before_punct_strip s : before_punct (strip_spaces s) = before_punct s.
Proof.
  induction s as [|c s IH]; [done|]. simpl.
  destruct (is_space c) eqn:Hc; simpl.
  - destruct (before_punct s) eqn:Hb.
    + by rewrite before_punct_space, IH.
    + by rewrite !before_punct_space, IH.
  - by rewrite !before_punct_other.
Qed.

Lemma has_gap_strip s : has_gap (strip_spaces s) = false.
Proof.
  induction s as [|c s IH]; [done|]. simpl.
  destruct (is_space c && before_punct s) eqn:Hgap; [done|].
  simpl. by rewrite before_punct_strip, Hgap, IH.
Qed.

Lemma strip_spaces_fixed s : has_gap s = false -> strip_spaces s = s.
Proof.
  induction s as [|c s IH]; [done|]. simpl.
  intros [-> Hs]%orb_false_iff. by rewrite IH.
Qed.

(** X8. The cleanup pass is idempotent: its result has no whitespace left
    before a punctuation mark, and running it again changes nothing. *)
Theorem cleanup_idempotent s :
  has_gap (cleanup s) = false /\ cleanup (cleanup s) = cleanup s.
Proof.
  rewrite !cleanup_strip. split; [apply has_gap_strip|].
  apply strip_spaces_fixed, has_gap_strip.
Qed.

Lemma strip_spaces_length s :
  String.length (strip_spaces s) <= String.length s.
Proof.
  induction s as [|c s IH]; [done|]. simpl.
  destruct (is_space c && before_punct s); simpl; lia.
Qed.

(** X9. The cleanup pass never touches a character that is not
    whitespace: the characters other than whitespace are the same, in the
    same order, before and after, and the text does not grow. *)
Theorem cleanup_keeps_text s :
  drop_spaces (cleanup s) = drop_spaces s /\
  String.length (cleanup s) <= String.length s.
Proof.
  rewrite cleanup_strip. split; [|apply strip_spaces_length].
  induction s as [|c s IH]; [done|]. simpl.
  destruct (is_space c) eqn:Hc; simpl.
  - destruct (before_punct s); simpl; by rewrite ?Hc.
  - by rewrite Hc, IH.
Qed.

(** X10. On a text that holds no citation tag and no whitespace before a
    punctuation mark the renderer is the identity, whatever the sources. *)
Theorem render_plain_text text srcs :
  ~ contains_marker text -> has_gap text = false ->
  render text srcs = Some (text, []).
Proof.
  intros Hno Hgap. unfold render, replace_tags.
  assert (H : re_sub cite_pattern (tag_replacer srcs) text = Some (text, [])).
  { clear Hgap. induction text as [|c text IH]; [done|].
    destruct (match_at cite_pattern (String c text)) as [m|] eqn:Hm.
    - exfalso. by eapply Hno, match_contains_marker.
    - rewrite (re_sub_copy _ _ _ _ Hm), IH; [done|].
      intros Hin. by apply Hno, contains_marker_tail. }
  rewrite H. simpl.
  by rewrite cleanup_strip, strip_spaces_fixed.
Qed.

Lemma render_plain_text_witness :
  render "Costs fell: by 3.5 percent, then rose < 1 percent." sources_a =
  Some ("Costs fell: by 3.5 percent, then rose < 1 percent.", []).
Proof.
  apply render_plain_text.
  - rewrite contains_marker_has_match. vm_compute. discriminate.
  - vm_compute. reflexivity.
Defined.

(** ** Entries the renderer cannot use *)

(** X11. A tag whose entry is not empty but has no [url] key makes the
    renderer raise, whatever stands before and after the tag. *)
Theorem tag_without_url_raises srcs pre tag short_id rest si :
  marker tag short_id ->
  srcs !! short_id = Some si ->
  source_truthy si = true ->
  src_url si = None ->
  render (pre +:+ tag +:+ rest) srcs = None.
Proof.
  intros Htag Hsi Htruthy Hurl. unfold render.
  rewrite (replace_tags_around _ _ _ _ _ Htag).
  rewrite (tag_replacer_no_url _ _ _ _ _ Hsi Htruthy Hurl).
  by destruct (replace_tags srcs pre) as [[out1 w1]|].
Qed.

Lemma tag_without_url_raises_witness :
  render ("see" +:+ cite_tag "src-1" +:+ " here")
    {[ "src-1" := {| src_short_id := Some "src-1";
                     src_title := Some (PyStr "A");
                     src_url := None;
                     src_domain := None;
                     src_supported_claims := None |} ]} = None.
Proof.
  eapply (tag_without_url_raises _ "see" (cite_tag "src-1") "src-1" " here").
  - by apply (cite_tag_marker "1").
  - reflexivity.
  - reflexivity.
  - reflexivity.
Defined.

(** X12. A tag whose entry is the empty dict is treated as a tag without
    entry: it is replaced by the empty string, with a warning that names
    it. *)
Theorem empty_entry_elided srcs pre tag short_id rest si out1 w1 out2 w2 :
  marker tag short_id ->
  srcs !! short_id = Some si ->
  source_truthy si = false ->
  replace_tags srcs pre = Some (out1, w1) ->
  replace_tags srcs rest = Some (out2, w2) ->
  render (pre +:+ tag +:+ rest) srcs =
  Some (cleanup (out1 +:+ out2), w1 ++ [invalid_tag_warning tag] ++ w2).
Proof.
  intros Htag Hsi Hfalsy Hpre Hrest. apply render_of_replace_tags.
  rewrite (replace_tags_around _ _ _ _ _ Htag), Hpre. simpl.
  rewrite (tag_replacer_empty_entry _ _ _ _ _ Hsi Hfalsy). simpl.
  by rewrite Hrest.
Qed.

Lemma empty_entry_elided_witness :
  render ("see" +:+ cite_tag "src-1" +:+ " here")
    {[ "src-1" := {| src_short_id := None; src_title := None; src_url := None;
                     src_domain := None; src_supported_claims := None |} ]} =
  Some (cleanup ("see" +:+ " here"), [invalid_tag_warning (cite_tag "src-1")]).
Proof.
  eapply (empty_entry_elided _ "see" (cite_tag "src-1") "src-1" " here" _
            "see" [] " here" []).
  - by apply (cite_tag_marker "1").
  - reflexivity.
  - reflexivity.
  - vm_compute. reflexivity.
  - vm_compute. reflexivity.
Defined.

(** ** From the collector to the renderer *)

Lemma pretty_N_char_digit x : is_digit (pretty_N_char x) = true.
Proof. unfold pretty_N_char. by repeat case_match. Qed.

Lemma pretty_N_go_digits x : forall s,
  all_in is_digit s = true -> all_in is_digit (pretty_N_go x s) = true.
Proof.
  induction (N.lt_wf_0 x) as [x _ IH]; intros s Hs.
  destruct (decide (x = 0%N)) as [->|Hx]; [by rewrite pretty_N_go_0|].
  rewrite pretty_N_go_step by lia.
  apply IH; [apply N.div_lt; lia|].
  simpl. by rewrite pretty_N_char_digit, Hs.
Qed.

Lemma pretty_N_go_nonempty x : forall s, s <> "" -> pretty_N_go x s <> "".
Proof.
  induction (N.lt_wf_0 x) as [x _ IH]; intros s Hs.
  destruct (decide (x = 0%N)) as [->|Hx]; [by rewrite pretty_N_go_0|].
  rewrite pretty_N_go_step by lia.
  apply IH; [apply N.div_lt; lia | done].
Qed.

(** The decimal form of a number is digits, at least one. *)
Lemma pretty_nat_digits (n : nat) :
  all_in is_digit (pretty n) = true /\ pretty n <> "".
Proof.
  unfold pretty, pretty_nat, pretty, pretty_N.
  destruct (decide (N.of_nat n = 0%N)) as [_|Hn]; [done|].
  split; [by apply pretty_N_go_digits|].
  rewrite pretty_N_go_step by lia. by apply pretty_N_go_nonempty.
Qed.

(** The tag of an id the collector assigns is a tag of the pattern. *)
Lemma short_id_marker n : marker (cite_tag (short_id_of n)) (short_id_of n).
Proof.
  destruct (pretty_nat_digits n) as [Hd Hne]. by apply cite_tag_marker.
Qed.

(** In a run every entry of the sources is the entry of a URL of the
    index. *)
Lemma run_entries history st short_id si :
  run history st ->
  sources_of st !! short_id = Some si ->
  exists url w claims,
    dict_get (index_of st) url = Some short_id /\
    first_web url (history_webs history) = Some w /\
    si = entry_of short_id w claims.
Proof.
  intros Hrun Hsi. destruct (run_webs _ _ Hrun) as [Hok Hkeys Hent].
  simpl in Hent.
  assert (Hin : short_id ∈ (index_of st).*2).
  { apply (ok_dom _ Hok). simpl. by eexists. }
  apply list_elem_of_fmap in Hin as ([url id'] & -> & Hin). simpl in *.
  apply list_elem_of_lookup in Hin as [n Hn].
  pose proof (dict_get_lookup _ _ _ _ (ok_nodup _ Hok) Hn) as Hid.
  destruct (Hent url id' Hid) as (w & cl & Hw & Hsrc).
  exists url, w, cl. split_and!; [done | done | congruence].
Qed.

Lemma run_sources_with_url history st :
  run history st -> sources_with_url (sources_of st).
Proof.
  intros Hrun id si Hsi _.
  destruct (run_entries _ _ _ _ Hrun Hsi) as (url & w & cl & _ & _ & ->).
  by eexists.
Qed.

(** X13. What the collector registers, the renderer resolves. In a run, the
    tag of the id of a URL of the index, written as the report composer is
    told to, anywhere in a text, is replaced by the link to that URL, with
    the title of the first chunk that carried the URL as its text; the
    first pass returns on the text before and after it. *)
Theorem collected_source_renders history st url short_id pre rest :
  run history st ->
  dict_get (index_of st) url = Some short_id ->
  exists w out1 w1 out2 w2,
    first_web url (history_webs history) = Some w /\
    replace_tags (sources_of st) pre = Some (out1, w1) /\
    replace_tags (sources_of st) rest = Some (out2, w2) /\
    render (pre +:+ cite_tag short_id +:+ rest) (sources_of st) =
      Some (cleanup (out1 +:+ link (py_format (web_title w)) (py_format url)
                          +:+ out2),
            w1 ++ w2).
Proof.
  intros Hrun Hid.
  destruct (run_webs _ _ Hrun) as [Hok Hkeys Hent]. simpl in Hent.
  destruct (Hent url short_id Hid) as (w & cl & Hw & Hsrc).
  pose proof (run_sources_with_url _ _ Hrun) as Hurl.
  destruct (replace_tags_returns (sources_of st) pre Hurl) as [[out1 w1] Hpre].
  destruct (replace_tags_returns (sources_of st) rest Hurl) as [[out2 w2] Hrest].
  assert (Htag : marker (cite_tag short_id) short_id).
  { apply dict_get_value in Hid. pose proof (ok_ids _ Hok) as Hids.
    simpl in Hids. rewrite Hids in Hid.
    apply list_elem_of_fmap in Hid as (n & -> & _). apply short_id_marker. }
  exists w, out1, w1, out2, w2. split_and!; try done.
  apply render_of_replace_tags.
  rewrite (replace_tags_around _ _ _ _ _ Htag), Hpre. simpl.
  unfold tag_replacer, tag_match. simpl. rewrite Hsrc. simpl.
  rewrite Hrest. simpl. by rewrite (first_web_uri _ _ _ Hw).
Qed.

Lemma collected_source_renders_witness :
  exists w out1 w1 out2 w2,
    first_web (PyStr "https://b.com") (history_webs ([event_ab] ++ [event_ab; event_bc]))
      = Some w /\
    replace_tags (sources_of state_abc) "As shown" = Some (out1, w1) /\
    replace_tags (sources_of state_abc) "." = Some (out2, w2) /\
    render ("As shown" +:+ cite_tag "src-2" +:+ ".") (sources_of state_abc) =
      Some (cleanup (out1 +:+ link (py_format (web_title w))
                                   (py_format (PyStr "https://b.com")) +:+ out2),
            w1 ++ w2).
Proof.
  apply (collected_source_renders _ state_abc (PyStr "https://b.com") "src-2"
           "As shown" "." run_sample).
  vm_compute. reflexivity.
Defined.

(** X14. In a run the callback of the report composer never raises,
    whatever the report: it returns the rendered text, writes it under
    [final_report_with_citations] and leaves the other keys; the text has no
    whitespace left before a punctuation mark; and where no report was
    written the text is empty. *)
Theorem citation_callback_returns history st :
  run history st ->
  exists text warnings,
    render (default "" (final_cited_report st)) (sources_of st) =
      Some (text, warnings) /\
    citation_replacement_callback st =
      Some ({| url_to_short_id := url_to_short_id st;
               sources := sources st;
               final_cited_report := final_cited_report st;
               final_report_with_citations := Some text;
               research_evaluation := research_evaluation st |},
            text, warnings) /\
    has_gap text = false /\
    (final_cited_report st = None -> text = "" /\ warnings = []).
Proof.
  intros Hrun. pose proof (run_sources_with_url _ _ Hrun) as Hurl.
  destruct (replace_tags_returns (sources_of st)
              (default "" (final_cited_report st)) Hurl) as [[out w] Hout].
  assert (Hrender : render (default "" (final_cited_report st)) (sources_of st) =
                    Some (cleanup out, w)) by by apply render_of_replace_tags.
  exists (cleanup out), w. split_and!.
  - done.
  - unfold citation_replacement_callback. fold (sources_of st).
    by rewrite Hrender.
  - rewrite cleanup_strip. apply has_gap_strip.
  - intros Hnone. rewrite Hnone in Hout. simpl in Hout.
    injection Hout as <- <-. done.
Qed.

Lemma citation_callback_returns_witness :
  exists text warnings,
    render (default "" (final_cited_report state_abc)) (sources_of state_abc) =
      Some (text, warnings) /\
    citation_replacement_callback state_abc =
      Some ({| url_to_short_id := url_to_short_id state_abc;
               sources := sources state_abc;
               final_cited_report := final_cited_report state_abc;
               final_report_with_citations := Some text;
               research_evaluation := research_evaluation state_abc |},
            text, warnings) /\
    has_gap text = false /\
    (final_cited_report state_abc = None -> text = "" /\ warnings = []).
Proof. exact (citation_callback_returns _ _ run_sample). Defined.
